(** * Transmission-line analytics: a shallow embedding of the Python core

    The development follows the four modules of the repository:

    - [tl_basics.py]   : [gamma_Z0]
    - [tl_abcd.py]     : [abcd_of_tline], [abcd_of_shunt_admittance],
                         [cascade_abcd], [z_in_from_abcd]
    - [tl_metrics.py]  : [gamma_of_impedance], [vswr_from_gamma],
                         [return_loss], [mismatch_loss]
    - [tl_matching.py] : [quarter_wave_transform], [single_stub_shunt]
    - [tl_waveforms.py]: [v_i_envelopes], [standing_wave]
    - [tl_dataset.py]  : the labelling loop of [make_regression_data]

    Numbers.  Python floats and numpy float64 values are read as exact real
    numbers ([R]); complex values as pairs of reals.  Rounding error is
    therefore not part of the model.  The sign of an IEEE zero is carried
    only where a result of the code depends on it: the zero imaginary part
    of the two arguments of [np.sqrt] in [gamma_Z0], which selects the
    branch of the root on the negative real axis.  What the code does when
    an operation has no finite value is written out:

    - a division of Python numbers by zero raises [ZeroDivisionError];
    - a division of numpy scalars by zero does not raise, it produces a
      non-finite value ([inf] or [nan]);
    - the sentinel [np.inf] returned by the code is the constructor [Inf].
*)

From Stdlib Require Import Reals Lra Lia String List Bool Arith.
Import ListNotations.
Open Scope R_scope.

(* ===================================================================== *)
(** ** Complex numbers *)
(* ===================================================================== *)

Definition Cplx : Type := (R * R)%type.

Definition Re (z : Cplx) : R := fst z.
Definition Im (z : Cplx) : R := snd z.

Definition RtoC (x : R) : Cplx := (x, 0).
Definition Ci : Cplx := (0, 1).
Definition C0 : Cplx := (0, 0).
Definition C1 : Cplx := (1, 0).

Definition cadd (z w : Cplx) : Cplx := (Re z + Re w, Im z + Im w).
Definition cneg (z : Cplx) : Cplx := (- Re z, - Im z).
Definition csub (z w : Cplx) : Cplx := (Re z - Re w, Im z - Im w).
Definition cmul (z w : Cplx) : Cplx :=
  (Re z * Re w - Im z * Im w, Re z * Im w + Im z * Re w).
Definition cnorm2 (z : Cplx) : R := Re z * Re z + Im z * Im z.
Definition cdiv (z w : Cplx) : Cplx :=
  ((Re z * Re w + Im z * Im w) / cnorm2 w,
   (Im z * Re w - Re z * Im w) / cnorm2 w).

(** [abs(z)] / [np.abs(z)] *)
Definition cabs (z : Cplx) : R := sqrt (cnorm2 z).

Declare Scope cplx_scope.
Delimit Scope cplx_scope with C.
Bind Scope cplx_scope with Cplx.
Infix "+" := cadd : cplx_scope.
Infix "-" := csub : cplx_scope.
Infix "*" := cmul : cplx_scope.
Infix "/" := cdiv : cplx_scope.
Notation "- z" := (cneg z) : cplx_scope.

Definition Ceq_dec (z w : Cplx) : {z = w} + {z <> w}.
Proof.
  destruct z as [a b], w as [c d].
  destruct (Req_dec_T a c) as [Hac | Hac].
  - destruct (Req_dec_T b d) as [Hbd | Hbd].
    + left; congruence.
    + right; congruence.
  - right; congruence.
Defined.

(** [np.sqrt] on a complex argument: the principal square root, the one
    with non-negative real part; on the negative real axis the imaginary
    part is taken positive (the zero imaginary part is [+0.0]). *)
Definition csqrt (z : Cplx) : Cplx :=
  let m := cabs z in
  (sqrt ((m + Re z) / 2),
   (if Rle_dec 0 (Im z) then 1 else -1) * sqrt ((m - Re z) / 2)).

(** *** The sign of a zero imaginary part

    [np.sqrt(x - 0j)] is the conjugate of [np.sqrt(x + 0j)]: for [x < 0]
    the root is [-j sqrt(-x)].  Which zero the code produces follows from
    the IEEE rules: a product has the sign of its factors, a sum of two
    zeros is [-0.0] only when both are, an exact cancellation is [+0.0].
    The operands below carry [+0.0] wherever they are zero (as [R + 1j*x]
    does for the Python numbers [R] and [x]). *)

Definition is_zero (x : R) : bool := if Req_dec_T x 0 then true else false.
Definition is_neg (x : R) : bool := if Rlt_dec x 0 then true else false.

(** The float product [x * y] is [-0.0]. *)
Definition mul_neg_zero (x y : R) : bool :=
  (is_zero x && is_neg y) || (is_neg x && is_zero y).

(** The imaginary part [z.real*w.imag + z.imag*w.real] of the Python
    product [z * w] is [-0.0]. *)
Definition cmul_im_neg_zero (z w : Cplx) : bool :=
  mul_neg_zero (Re z) (Im w) && mul_neg_zero (Im z) (Re w).

(** The imaginary part of the Python quotient [z / w] is [-0.0], when it is
    zero at all.  CPython divides by Smith's method: with
    [|w.real| >= |w.imag|], [ratio = w.imag / w.real],
    [denom = w.real + w.imag * ratio] and
    [imag = (z.imag - z.real * ratio) / denom]; otherwise
    [ratio = w.real / w.imag], [denom = w.real * ratio + w.imag] and
    [imag = (z.imag * ratio - z.real) / denom].  In the first case a zero
    numerator is [+0.0] and takes the sign of [denom], that of [w.real];
    in the second it is [z.imag * ratio - 0.0] when [z.real] is zero, and
    [+0.0] over a [denom] of the sign of [w.imag] otherwise. *)
Definition cdiv_im_neg_zero (z w : Cplx) : bool :=
  if Rle_dec (Rabs (Im w)) (Rabs (Re w)) then is_neg (Re w)
  else if Req_dec_T (Re z) 0 then
         (is_neg (Im z) && is_zero (Re w)) || (is_zero (Im z) && is_neg (Re w))
  else is_neg (Im w).

(** [np.sqrt] on a complex argument whose imaginary part, where it is zero,
    is [-0.0] when [neg_zero] holds. *)
Definition np_sqrt (z : Cplx) (neg_zero : bool) : Cplx :=
  if neg_zero && is_zero (Im z) then (Re (csqrt z), - Im (csqrt z))
  else csqrt z.

(** [np.cosh], [np.sinh], [np.cos], [np.sin] on a complex argument. *)
Definition ccosh (z : Cplx) : Cplx :=
  (cosh (Re z) * cos (Im z), sinh (Re z) * sin (Im z)).
Definition csinh (z : Cplx) : Cplx :=
  (sinh (Re z) * cos (Im z), cosh (Re z) * sin (Im z)).
Definition ccos (z : Cplx) : Cplx :=
  (cos (Re z) * cosh (Im z), - (sin (Re z) * sinh (Im z))).
Definition csin (z : Cplx) : Cplx :=
  (sin (Re z) * cosh (Im z), cos (Re z) * sinh (Im z)).

(** Principal argument, in (-pi, pi]. *)
Definition carg (z : Cplx) : R :=
  let x := Re z in
  let y := Im z in
  if Rlt_dec 0 x then atan (y / x)
  else if Rlt_dec x 0 then
         (if Rle_dec 0 y then atan (y / x) + PI else atan (y / x) - PI)
  else if Rlt_dec 0 y then PI / 2
  else if Rlt_dec y 0 then - (PI / 2)
  else 0.

(** Principal logarithm (for a non-zero argument). *)
Definition clog (z : Cplx) : Cplx := (ln (cabs z), carg z).

(** [np.arctan] on a finite complex argument other than [+-1j]:
    arctan z = (i/2) (log (1 - i z) - log (1 + i z)). *)
Definition carctan (z : Cplx) : Cplx :=
  ((0, / 2) * (clog (C1 - Ci * z) - clog (C1 + Ci * z)))%C.

(** numpy orders complex scalars lexicographically (real part first). *)
Definition clt_lex (z w : Cplx) : bool :=
  if Rlt_dec (Re z) (Re w) then true
  else if Req_dec_T (Re z) (Re w) then
         (if Rlt_dec (Im z) (Im w) then true else false)
  else false.

(* ===================================================================== *)
(** ** Exceptions and non-finite values *)
(* ===================================================================== *)

(** [ValueError] is raised by the code itself and carries its message;
    the other two are raised by the interpreter. *)
Inductive exn : Type :=
| ValueError (msg : string)
| ZeroDivisionError
| TypeError.

Inductive result (A : Type) : Type :=
| Ok (a : A)
| Raise (e : exn).
Arguments Ok {A} a.
Arguments Raise {A} e.

Definition bind {A B : Type} (c : result A) (k : A -> result B) : result B :=
  match c with
  | Ok a => k a
  | Raise e => Raise e
  end.

Notation "x <- c ;; k" := (bind c (fun x => k))
  (at level 61, c at next level, right associativity).

(** A numpy scalar: a finite value, an infinite one, or not-a-number. *)
Inductive ext (A : Type) : Type :=
| Fin (a : A)
| Inf
| NaN.
Arguments Fin {A} a.
Arguments Inf {A}.
Arguments NaN {A}.

(** Division of Python numbers. *)
Definition py_cdiv (z w : Cplx) : result Cplx :=
  if Ceq_dec w C0 then Raise ZeroDivisionError
  else Ok (z / w)%C.

Definition py_rdiv (x y : R) : result R :=
  if Req_dec_T y 0 then Raise ZeroDivisionError
  else Ok (x / y).

(** Division of numpy scalars: [0/0] is [nan], [z/0] for [z <> 0] has an
    infinite component. *)
Definition np_cdiv (z w : Cplx) : ext Cplx :=
  if Ceq_dec w C0 then (if Ceq_dec z C0 then NaN else Inf)
  else Fin (z / w)%C.

Definition np_rdiv (x y : R) : ext R :=
  if Req_dec_T y 0 then (if Req_dec_T x 0 then NaN else Inf)
  else Fin (x / y).

(** The finite value of a numpy scalar, if it has one. *)
Definition finite {A : Type} (x : ext A) : option A :=
  match x with
  | Fin a => Some a
  | Inf | NaN => None
  end.

(** [np.isclose(a, b)] with the default [rtol=1e-05], [atol=1e-08]. *)
Definition isclose (a b : R) : bool :=
  if Rle_dec (Rabs (a - b)) (1e-8 + 1e-5 * Rabs b) then true else false.

(* ===================================================================== *)
(** ** tl_basics.py *)
(* ===================================================================== *)

(** [Z * Y] and [Z / Y] are Python's complex product and quotient; the
    sign of their zero imaginary part decides the root [np.sqrt] takes on
    the negative real axis (on a lossless line: [-j] at a negative
    frequency). *)
Definition gamma_Z0 (R_ L G C freq : R) : result (Cplx * Cplx) :=
  let omega := 2 * PI * freq in
  let Z := (RtoC R_ + Ci * RtoC omega * RtoC L)%C in
  let Y := (RtoC G + Ci * RtoC omega * RtoC C)%C in
  let gamma := np_sqrt (Z * Y) (cmul_im_neg_zero Z Y) in
  q <- py_cdiv Z Y ;;
  let Z0 := np_sqrt q (cdiv_im_neg_zero Z Y) in
  Ok (gamma, Z0).

(* ===================================================================== *)
(** ** tl_abcd.py *)
(* ===================================================================== *)

(** A 2x2 complex matrix [[A, B], [C, D]]. *)
Record ABCD : Type := mkABCD {
  mA : Cplx;
  mB : Cplx;
  mC : Cplx;
  mD : Cplx
}.

(** [np.eye(2, dtype=complex)] *)
Definition eye2 : ABCD := mkABCD C1 C0 C0 C1.

(** [M @ N] *)
Definition matmul (M N : ABCD) : ABCD :=
  mkABCD (mA M * mA N + mB M * mC N)%C
         (mA M * mB N + mB M * mD N)%C
         (mC M * mA N + mD M * mC N)%C
         (mC M * mB N + mD M * mD N)%C.

Definition abcd_of_tline (gamma Z0 : Cplx) (length : R) : result ABCD :=
  let A := ccosh (gamma * RtoC length) in
  let B := (Z0 * csinh (gamma * RtoC length))%C in
  invZ0 <- py_cdiv C1 Z0 ;;
  let C := (invZ0 * csinh (gamma * RtoC length))%C in
  let D := ccosh (gamma * RtoC length) in
  Ok (mkABCD A B C D).

Definition abcd_of_shunt_admittance (Y : Cplx) : ABCD :=
  mkABCD C1 C0 Y C1.

Definition cascade_abcd (abcd_list : list ABCD) : ABCD :=
  fold_left (fun result abcd => matmul result abcd) abcd_list eye2.

Definition z_in_from_abcd (M : ABCD) (ZL : Cplx) : ext Cplx :=
  let denom := (mC M * ZL + mD M)%C in
  if Rlt_dec (cabs denom) 1e-12 then Inf
  else np_cdiv (mA M * ZL + mB M) denom.

(* ===================================================================== *)
(** ** tl_metrics.py *)
(* ===================================================================== *)

(** The load may be a non-finite numpy value (the sentinel of
    [z_in_from_abcd], or a [nan]).  Then [denom] is non-finite,
    [np.abs(denom) < 1e-12] is false and the quotient is [nan]. *)
Definition gamma_of_impedance (ZL : ext Cplx) (Z0 : Cplx) : result (ext Cplx) :=
  match ZL with
  | Fin zl =>
      let denom := (zl + Z0)%C in
      if Rlt_dec (cabs denom) 1e-12 then Ok (Fin C1)
      else q <- py_cdiv (zl - Z0) denom ;; Ok (Fin q)
  | Inf => Ok NaN
  | NaN => Ok NaN
  end.

(** On [nan] the test [mag >= 1.0] is false and the quotient is [nan];
    an infinite argument has [mag = inf]. *)
Definition vswr_from_gamma (gamma : ext Cplx) : result (ext R) :=
  match gamma with
  | Fin g =>
      let mag := cabs g in
      if Rge_dec mag 1 then Ok Inf
      else q <- py_rdiv (1 + mag) (1 - mag) ;; Ok (Fin q)
  | Inf => Ok Inf
  | NaN => Ok NaN
  end.

(* ===================================================================== *)
(** ** tl_matching.py *)
(* ===================================================================== *)

Record QWTMatchResult : Type := mkQWT {
  qwt_VSWR_src : ext R;
  qwt_l_qw : R;
  qwt_Zt : Cplx;
  qwt_j_index : nat
}.

Definition quarter_wave_transform (R_ L G C f0 : R) (ZL : Cplx)
  : result QWTMatchResult :=
  gz <- gamma_Z0 R_ L G C f0 ;;
  let gamma := fst gz in
  let Z0 := snd gz in
  let beta := Im gamma in
  if isclose beta 0 then
    Raise (ValueError
             "Quarter-wave undefined: beta (imag part of gamma) is zero.")
  else
    let Zt := csqrt (Z0 * ZL) in
    let l_qw := PI / (2 * beta) in
    let Zin_at_transform_input := np_cdiv (Zt * Zt) ZL in
    Gamma_in <- gamma_of_impedance Zin_at_transform_input Z0 ;;
    VSWR_src <- vswr_from_gamma Gamma_in ;;
    Ok (mkQWT VSWR_src l_qw Zt 1).

(** The values interpolated into the [notes] f-string, in order:
    [d_opt], [Yin_best], [B_needed], [l_stub].  The string is a function of
    these four values only. *)
Record StubNotes : Type := mkNotes {
  note_d : R;
  note_Yin : Cplx;
  note_B_needed : R;
  note_l_stub : Cplx
}.

Record StubMatchResult : Type := mkStub {
  VSWR_src : ext R;
  d_opt : R;
  l_stub : Cplx;
  notes : StubNotes
}.

(** [np.linspace(start, stop, num)]: [arange(num) * step + start] with
    [step = (stop - start) / (num - 1)]. *)
Definition linspace (start stop : R) (num : nat) : list R :=
  map (fun k => INR k * ((stop - start) / INR (num - 1)) + start) (seq 0 num).

(** One pass of the sweep body up to [Yin]: the input admittance seen at
    distance [d] from the load, [None] when a division hits zero (numpy
    then yields a non-finite [Yin], whose error is never below [min_err]). *)
Definition Yin_at (Z0 ZL : Cplx) (beta d : R) : option Cplx :=
  let t := RtoC (tan (beta * d)) in
  match finite (np_cdiv (Z0 * (ZL + Ci * Z0 * t)) (Z0 + Ci * ZL * t)) with
  | None => None
  | Some Zin => finite (np_cdiv C1 Zin)
  end.

(** [err = abs(np.real(Yin) - np.real(y0))] *)
Definition err_at (Z0 ZL y0 : Cplx) (beta d : R) : option R :=
  match Yin_at Z0 ZL beta d with
  | None => None
  | Some Yin => Some (Rabs (Re Yin - Re y0))
  end.

(** The loop state [(min_err, d_best, Yin_best)]; [d_best] and [Yin_best]
    are [None] together. *)
Definition sweep_state : Type := (R * option (R * Cplx))%type.

Definition sweep_step (Z0 ZL y0 : Cplx) (beta : R)
  (st : sweep_state) (d : R) : sweep_state :=
  match Yin_at Z0 ZL beta d with
  | None => st
  | Some Yin =>
      let err := Rabs (Re Yin - Re y0) in
      if Rlt_dec err (fst st) then (err, Some (d, Yin)) else st
  end.

Definition sweep (Z0 ZL y0 : Cplx) (beta : R) (d_sweep : list R)
  : sweep_state :=
  fold_left (sweep_step Z0 ZL y0 beta) d_sweep (1e9, None).

(** [np.arctan(1 / target)] for the complex128 [target]: at [target = 0]
    the reciprocal is [inf+nanj], whose arctangent is [pi/2]. *)
Definition arctan_recip (target : Cplx) : Cplx :=
  if Ceq_dec target C0 then (PI / 2, 0) else carctan (C1 / target)%C.

(** [x / np.tan(t)], written [x * cos t / sin t]: where [cos t = 0] the
    floating-point tangent is a huge finite number and the quotient is
    (numerically) zero; where [sin t = 0] the quotient is non-finite. *)
Definition div_by_tan (x t : Cplx) : ext Cplx :=
  np_cdiv (x * ccos t) (csin t).

Definition single_stub_shunt (R_ L G C f0 l : R) (ZL : Cplx) (prefer : string)
  : result StubMatchResult :=
  (* Lossless matching section *)
  gz <- gamma_Z0 0 L 0 C f0 ;;
  let gamma := fst gz in
  let Z0 := snd gz in
  let beta := Im gamma in
  match finite (np_rdiv (2 * PI) beta), finite (np_cdiv C1 Z0) with
  | Some lam, Some y0 =>
      (* Sweep distance d to find where Re(Yin) = Re(y0) *)
      let d_sweep := linspace 0 (lam / 2) 1000 in
      match snd (sweep Z0 ZL y0 beta d_sweep) with
      | None => Raise TypeError  (* Yin_best is None in [Yin_best - y0] *)
      | Some (d_best, Yin_best) =>
          let d_opt := d_best in
          (* Needed susceptance *)
          let B_needed := - Im (Yin_best - y0)%C in
          (* Solve stub length from cot() relation *)
          let short := String.eqb prefer "short" in
          let target :=
            if short then (RtoC (- B_needed) * Z0)%C
            else (RtoC B_needed * Z0)%C in
          let theta := arctan_recip target in
          let theta :=
            if clt_lex theta C0 then (theta + RtoC PI)%C else theta in
          let l_stub := (theta / RtoC beta)%C in
          let Y_stub :=
            if short
            then div_by_tan (- Ci * (C1 / Z0))%C (RtoC beta * l_stub)%C
            else div_by_tan (Ci * (C1 / Z0))%C (RtoC beta * l_stub)%C in
          (* Build ABCD chain *)
          abcd1 <- abcd_of_tline gamma Z0 d_opt ;;
          abcd2 <- abcd_of_tline gamma Z0 (l - d_opt) ;;
          VSWR_src <-
            match Y_stub with
            | Fin Ys =>
                let abcd_stub := abcd_of_shunt_admittance Ys in
                let ABCD_total := cascade_abcd [abcd1; abcd_stub; abcd2] in
                let Zin := z_in_from_abcd ABCD_total ZL in
                Gamma_in <- gamma_of_impedance Zin Z0 ;;
                vswr_from_gamma Gamma_in
            | Inf | NaN => Ok NaN
            end ;;
          Ok (mkStub VSWR_src d_opt l_stub
                     (mkNotes d_opt Yin_best B_needed l_stub))
      end
  (* lam or y0 is not finite: every sample of the sweep has a non-finite
     error, none is accepted, Yin_best stays None and
     [Yin_best - y0] raises *)
  | _, _ => Raise TypeError
  end.

(* ===================================================================== *)
(** ** Predicates used to state the properties *)
(* ===================================================================== *)

(** A VSWR value that is at least 1 (a [nan] is not). *)
Definition at_least_one (v : ext R) : Prop :=
  match v with
  | Fin x => 1 <= x
  | Inf => True
  | NaN => False
  end.

(** The per-unit-length series impedance [R + j omega L] (and, with G and C,
    the shunt admittance) in normal form. *)
Definition line_Z (R_ L f : R) : Cplx := (R_, 2 * PI * f * L).

(** C3 as the specification words it: for f > 0 the solver returns a
    propagation constant with positive imaginary part and a characteristic
    impedance with positive real part. *)
Definition principal_branch_claim (R_ L G C f : R) : Prop :=
  0 < f ->
  exists gamma Z0 : Cplx,
    gamma_Z0 R_ L G C f = Ok (gamma, Z0) /\ 0 < Im gamma /\ 0 < Re Z0.

(** C1 as the specification words it: whenever beta = Im(gamma) is not
    numerically zero, the quarter-wave solver reports a perfect match
    (VSWR_src within 1e-6 of 1), a positive length pi/(2*beta) and the
    geometric-mean impedance. *)
Definition quarter_wave_claim (R_ L G C f0 : R) (ZL : Cplx) : Prop :=
  forall gamma Z0 : Cplx,
    gamma_Z0 R_ L G C f0 = Ok (gamma, Z0) ->
    isclose (Im gamma) 0 = false ->
    exists res : QWTMatchResult,
      quarter_wave_transform R_ L G C f0 ZL = Ok res /\
      (exists v : R, qwt_VSWR_src res = Fin v /\ Rabs (v - 1) <= 1e-6) /\
      qwt_l_qw res = PI / (2 * Im gamma) /\
      0 < qwt_l_qw res /\
      qwt_Zt res = csqrt (Z0 * ZL).

(** C6 as the specification words it: on every input on which the stub
    solver returns, the stub length is a real number that is non-negative
    and below half a wavelength of the lossless matching section. *)
Definition stub_length_claim (R_ L G C f0 l : R) (ZL : Cplx)
  (prefer : string) : Prop :=
  forall res : StubMatchResult,
    single_stub_shunt R_ L G C f0 l ZL prefer = Ok res ->
    exists gamma Z0 : Cplx,
      gamma_Z0 0 L 0 C f0 = Ok (gamma, Z0) /\
      Im (l_stub res) = 0 /\
      0 <= Re (l_stub res) < 2 * PI / Im gamma / 2.

(** The k-th of the 1000 uniformly spaced sample points of [0, lam/2]. *)
Definition grid_point (lam : R) (k : nat) : R := INR k * (lam / 2 / 999).

(** What the sweep has established after the samples [seen]: [min_err]
    bounds every finite error seen so far from below, and the recorded
    sample, if any, is the first one that attains it. *)
Definition sweep_inv (Z0 ZL y0 : Cplx) (beta : R)
  (seen : list R) (st : sweep_state) : Prop :=
  fst st <= 1e9 /\
  (forall (j : nat) (dj e : R),
      nth_error seen j = Some dj ->
      err_at Z0 ZL y0 beta dj = Some e -> fst st <= e) /\
  match snd st with
  | None => fst st = 1e9
  | Some (d, Yin) =>
      Yin_at Z0 ZL beta d = Some Yin /\
      fst st = Rabs (Re Yin - Re y0) /\
      fst st < 1e9 /\
      exists k : nat,
        nth_error seen k = Some d /\
        forall (j : nat) (dj e : R),
          (j < k)%nat ->
          nth_error seen j = Some dj ->
          err_at Z0 ZL y0 beta dj = Some e -> fst st < e
  end.

(* ===================================================================== *)
(** ** tl_metrics.py: the loss figures *)
(* ===================================================================== *)

(** [np.log10], on a positive argument. *)
Definition np_log10 (x : R) : R := ln x / ln 10.

(** On a finite reflection coefficient. *)
Definition return_loss (gamma : Cplx) : R :=
  let mag := cabs gamma in
  if Rlt_dec mag 1e-12 then 100
  else -20 * np_log10 mag.

Definition mismatch_loss (gamma : Cplx) : ext R :=
  let mag2 := cabs gamma ^ 2 in
  if Rge_dec mag2 1 then Inf
  else Fin (-10 * np_log10 (1 - mag2)).

(* ===================================================================== *)
(** ** tl_waveforms.py *)
(* ===================================================================== *)

(** [np.exp] on a complex argument. *)
Definition cexp (z : Cplx) : Cplx :=
  (exp (Re z) * cos (Im z), exp (Re z) * sin (Im z)).

(** [np.max(z)]; numpy raises [ValueError] on an empty array. *)
Definition np_max (z : list R) : result R :=
  match z with
  | [] =>
      Raise (ValueError
        "zero-size array to reduction operation maximum which has no identity")
  | x :: xs => Ok (fold_left Rmax xs x)
  end.

(** An element of a complex numpy array: [None] when it is not finite. *)
Definition np_elem : Type := option Cplx.

Definition np_elem_sub (a b : np_elem) : np_elem :=
  match a, b with
  | Some x, Some y => Some (x - y)%C
  | _, _ => None
  end.

(** [length=None] is [None].  [ZL] and [Z0] are Python complex numbers,
    as the signature annotates them: the quotient for [GammaL] raises on a
    zero denominator.  The voltages are sums of finite products; the
    currents are numpy quotients by [Z0]. *)
Definition v_i_envelopes (V0p gamma Z0 : Cplx) (z : list R) (ZL : Cplx)
  (length : option R) : result (list np_elem * list np_elem) :=
  L <- match length with
       | None => np_max z
       | Some len => Ok len
       end ;;
  (* Reflection coefficient at the load *)
  GammaL <- py_cdiv (ZL - Z0) (ZL + Z0) ;;
  let V_plus := map (fun zi => (V0p * cexp (- gamma * RtoC zi))%C) z in
  let V_minus :=
    map (fun zi => (V0p * GammaL * cexp (gamma * RtoC (zi - L)))%C) z in
  let Vz := map (fun pm => Some (fst pm + snd pm)%C) (combine V_plus V_minus) in
  let Iz :=
    map (fun pm => np_elem_sub (finite (np_cdiv (fst pm) Z0))
                               (finite (np_cdiv (snd pm) Z0)))
        (combine V_plus V_minus) in
  Ok (Vz, Iz).

Definition standing_wave (Vz Iz : list np_elem)
  : list (option R) * list (option R) :=
  (map (option_map cabs) Vz, map (option_map cabs) Iz).

(* ===================================================================== *)
(** ** tl_dataset.py: the labelling loop *)
(* ===================================================================== *)

(** One row of the arrays drawn by the generator: [Rv[i]], [Lv[i]],
    [Gv[i]], [Cv[i]], [fv[i]], [lv[i]], [RL[i]].  The draws themselves are
    numpy's; the loop over them is the code's. *)
Record draw : Type := mkDraw {
  dr_R : R;
  dr_L : R;
  dr_G : R;
  dr_C : R;
  dr_f : R;
  dr_l : R;
  dr_RL : R
}.

Fixpoint for_each {A B : Type} (f : A -> result B) (xs : list A)
  : result (list B) :=
  match xs with
  | [] => Ok []
  | x :: rest =>
      y <- f x ;;
      ys <- for_each f rest ;;
      Ok (y :: ys)
  end.

(** The body of the loop of [make_regression_data]; [RL[i]] is
    [RL + 0j]. *)
Definition regression_label (d : draw) : result (ext R) :=
  gz <- gamma_Z0 (dr_R d) (dr_L d) (dr_G d) (dr_C d) (dr_f d) ;;
  let z0 := snd gz in
  Gam <- gamma_of_impedance (Fin (RtoC (dr_RL d))) z0 ;;
  vswr_from_gamma Gam.

(** The list [y] of [make_regression_data] on the drawn rows. *)
Definition make_regression_labels (draws : list draw)
  : result (list (ext R)) :=
  for_each regression_label draws.

(** The ranges of the [rng.uniform] calls of [make_regression_data]. *)
Definition in_sampling_range (d : draw) : Prop :=
  0.01 <= dr_R d <= 0.2 /\
  1e-7 <= dr_L d <= 5e-7 /\
  0 <= dr_G d <= 5e-8 /\
  5e-11 <= dr_C d <= 1.2e-10 /\
  5e8 <= dr_f d <= 1.5e9 /\
  0.05 <= dr_l d <= 0.5 /\
  5 <= dr_RL d <= 200.

(* ===================================================================== *)
(** ** Further predicates *)
(* ===================================================================== *)

(** The reciprocal of a complex number. *)
Definition cinv (z : Cplx) : Cplx := (C1 / z)%C.

(** The determinant A D - B C of a two-port matrix. *)
Definition det (M : ABCD) : Cplx := (mA M * mD M - mB M * mC M)%C.

(** A matrix built by one of the two constructors of [tl_abcd.py]. *)
Definition ladder_element (M : ABCD) : Prop :=
  (exists (gamma Z0 : Cplx) (len : R), abcd_of_tline gamma Z0 len = Ok M) \/
  (exists Y : Cplx, M = abcd_of_shunt_admittance Y).

(** The order of VSWR values: [Inf] is the largest, [nan] compares with
    nothing. *)
Definition ext_le (v w : ext R) : Prop :=
  match v, w with
  | Fin x, Fin y => x <= y
  | Fin _, Inf => True
  | Inf, Inf => True
  | _, _ => False
  end.

(* ===================================================================== *)
(** * Properties *)
(* ===================================================================== *)

(** ** Complex arithmetic *)

Ltac cplx_unfold :=
  unfold cadd, csub, cmul, cdiv, cneg, cnorm2, RtoC, Ci, C0, C1, Re, Im in *;
  simpl in *.

Ltac cplx_destruct :=
  repeat match goal with
         | z : Cplx |- _ => destruct z
         end.

Lemma cplx_eq (z w : Cplx) : Re z = Re w -> Im z = Im w -> z = w.
Proof. destruct z, w; simpl; intros; subst; reflexivity. Qed.

Lemma cnorm2_nonneg (z : Cplx) : 0 <= cnorm2 z.
Proof. unfold cnorm2. nra. Qed.

Lemma cnorm2_zero (z : Cplx) : cnorm2 z = 0 -> z = C0.
Proof.
  destruct z as [a b]; unfold cnorm2, C0; simpl; intros H.
  assert (a = 0) by nra. assert (b = 0) by nra. subst; reflexivity.
Qed.

Lemma cnorm2_pos (z : Cplx) : z <> C0 -> 0 < cnorm2 z.
Proof.
  intros Hz. destruct (cnorm2_nonneg z) as [H | H]; [exact H | ].
  exfalso; apply Hz, cnorm2_zero; symmetry; exact H.
Qed.

Lemma cabs_nonneg (z : Cplx) : 0 <= cabs z.
Proof. apply sqrt_pos. Qed.

Lemma cabs_zero (z : Cplx) : cabs z = 0 -> z = C0.
Proof.
  unfold cabs; intros H. apply cnorm2_zero.
  apply sqrt_eq_0; [apply cnorm2_nonneg | exact H].
Qed.

Lemma cabs_C0 : cabs C0 = 0.
Proof.
  unfold cabs, cnorm2, C0; simpl.
  replace (0 * 0 + 0 * 0) with 0 by ring. apply sqrt_0.
Qed.

Lemma cabs_C1 : cabs C1 = 1.
Proof.
  unfold cabs, cnorm2, C1; simpl.
  replace (1 * 1 + 0 * 0) with 1 by ring. apply sqrt_1.
Qed.

Lemma cabs_RtoC (x : R) : cabs (RtoC x) = Rabs x.
Proof.
  unfold cabs, cnorm2, RtoC; simpl.
  replace (x * x + 0 * 0) with (Rsqr x) by (unfold Rsqr; ring).
  apply sqrt_Rsqr_abs.
Qed.

(** A value that passes the [abs(denom) < 1e-12] test's negation is not zero. *)
Lemma cabs_not_small_nonzero (z : Cplx) : ~ cabs z < 1e-12 -> z <> C0.
Proof.
  intros H Hz. apply H. rewrite Hz, cabs_C0. lra.
Qed.

Lemma cmul_comm (z w : Cplx) : (z * w = w * z)%C.
Proof. cplx_destruct; cplx_unfold; f_equal; ring. Qed.

Lemma cmul_assoc (z w u : Cplx) : (z * (w * u) = z * w * u)%C.
Proof. cplx_destruct; cplx_unfold; f_equal; ring. Qed.

Lemma cmul_1_l (z : Cplx) : (C1 * z = z)%C.
Proof. cplx_destruct; cplx_unfold; f_equal; ring. Qed.

Lemma cmul_1_r (z : Cplx) : (z * C1 = z)%C.
Proof. cplx_destruct; cplx_unfold; f_equal; ring. Qed.

Lemma cmul_0_l (z : Cplx) : (C0 * z = C0)%C.
Proof. cplx_destruct; cplx_unfold; f_equal; ring. Qed.

Lemma cmul_0_r (z : Cplx) : (z * C0 = C0)%C.
Proof. cplx_destruct; cplx_unfold; f_equal; ring. Qed.

Lemma cadd_0_l (z : Cplx) : (C0 + z = z)%C.
Proof. cplx_destruct; cplx_unfold; f_equal; ring. Qed.

Lemma cadd_0_r (z : Cplx) : (z + C0 = z)%C.
Proof. cplx_destruct; cplx_unfold; f_equal; ring. Qed.

Lemma cmul_add_distr_l (z w u : Cplx) : (z * (w + u) = z * w + z * u)%C.
Proof. cplx_destruct; cplx_unfold; f_equal; ring. Qed.

Lemma csub_diag (z : Cplx) : (z - z = C0)%C.
Proof. cplx_destruct; cplx_unfold; f_equal; ring. Qed.

Lemma cdiv_1_r (z : Cplx) : (z / C1 = z)%C.
Proof. cplx_destruct; cplx_unfold; f_equal; field. Qed.

Lemma cdiv_0_l (z : Cplx) : (C0 / z = C0)%C.
Proof. cplx_destruct; cplx_unfold; f_equal; unfold Rdiv; ring. Qed.

Lemma cmul_cdiv_cancel (z w : Cplx) : w <> C0 -> (z * w / w = z)%C.
Proof.
  intros Hw. pose proof (cnorm2_pos w Hw) as Hn.
  destruct z as [a b], w as [c d]; cplx_unfold.
  f_equal; field; lra.
Qed.

Lemma cmul_cinv_r (z : Cplx) : z <> C0 -> (z * (C1 / z) = C1)%C.
Proof.
  intros Hz. pose proof (cnorm2_pos z Hz) as Hn.
  destruct z as [a b]; cplx_unfold.
  f_equal; field; lra.
Qed.

Lemma cmul_nonzero (z w : Cplx) : z <> C0 -> w <> C0 -> (z * w)%C <> C0.
Proof.
  intros Hz Hw H.
  pose proof (cnorm2_pos z Hz) as Hnz. pose proof (cnorm2_pos w Hw) as Hnw.
  assert (Hn : cnorm2 (z * w)%C = cnorm2 z * cnorm2 w).
  { destruct z, w; cplx_unfold; ring. }
  rewrite H in Hn. unfold cnorm2 at 1 in Hn; unfold C0 in Hn; simpl in Hn.
  nra.
Qed.

Lemma pair_nonzero_l (x y : R) : x <> 0 -> (x, y) <> C0.
Proof. unfold C0; intros Hx E; inversion E; contradiction. Qed.

Lemma py_cdiv_ok (z w : Cplx) : w <> C0 -> py_cdiv z w = Ok (z / w)%C.
Proof.
  intros Hw. unfold py_cdiv. destruct (Ceq_dec w C0); [contradiction | reflexivity].
Qed.

Lemma py_rdiv_ok (x y : R) : y <> 0 -> py_rdiv x y = Ok (x / y).
Proof.
  intros Hy. unfold py_rdiv. destruct (Req_dec_T y 0); [contradiction | reflexivity].
Qed.

Lemma np_cdiv_fin (z w : Cplx) : w <> C0 -> np_cdiv z w = Fin (z / w)%C.
Proof.
  intros Hw. unfold np_cdiv. destruct (Ceq_dec w C0); [contradiction | reflexivity].
Qed.

(** ** The principal square root *)

Lemma Rabs_le_between (x a : R) : Rabs x <= a -> - a <= x <= a.
Proof. unfold Rabs; destruct (Rcase_abs x); lra. Qed.

Lemma cabs_ge_re (z : Cplx) : Rabs (Re z) <= cabs z.
Proof.
  unfold cabs, cnorm2.
  rewrite <- sqrt_Rsqr_abs. apply sqrt_le_1_alt. unfold Rsqr. nra.
Qed.

Lemma cabs_sqr (z : Cplx) : cabs z * cabs z = cnorm2 z.
Proof. unfold cabs. apply sqrt_sqrt, cnorm2_nonneg. Qed.

Lemma csqrt_sqr (z : Cplx) : (csqrt z * csqrt z = z)%C.
Proof.
  pose proof (cabs_ge_re z) as Hre. pose proof (cabs_sqr z) as Hm.
  pose proof (cabs_nonneg z) as Hm0.
  destruct z as [a b]. unfold csqrt. set (m := cabs (a, b)) in *.
  unfold cnorm2 in Hm. cbn [Re Im fst snd] in *.
  assert (Hp : 0 <= (m + a) / 2) by (apply Rabs_le_between in Hre; lra).
  assert (Hq : 0 <= (m - a) / 2) by (apply Rabs_le_between in Hre; lra).
  set (s := if Rle_dec 0 b then 1 else -1).
  assert (Hs : s * s = 1) by (unfold s; destruct (Rle_dec 0 b); ring).
  unfold cmul; cbn [Re Im fst snd]. f_equal.
  - transitivity (sqrt ((m + a) / 2) * sqrt ((m + a) / 2)
                  - (s * s) * (sqrt ((m - a) / 2) * sqrt ((m - a) / 2))); [ring | ].
    rewrite Hs, !sqrt_sqrt by assumption. field.
  - transitivity (2 * s * (sqrt ((m + a) / 2) * sqrt ((m - a) / 2))); [ring | ].
    rewrite <- sqrt_mult by assumption.
    replace ((m + a) / 2 * ((m - a) / 2)) with (Rsqr (b / 2))
      by (unfold Rsqr; field_simplify; nra).
    rewrite sqrt_Rsqr_abs. unfold s.
    destruct (Rle_dec 0 b) as [Hb | Hb].
    + rewrite Rabs_right by lra. field.
    + rewrite Rabs_left by lra. field.
Qed.

Lemma csqrt_re_nonneg (z : Cplx) : 0 <= Re (csqrt z).
Proof. unfold csqrt; simpl. apply sqrt_pos. Qed.

(** The square root of a non-negative real is its real square root. *)
Lemma csqrt_nonneg_real (x : R) : 0 <= x -> csqrt (x, 0) = (sqrt x, 0).
Proof.
  intros Hx. unfold csqrt. change (cabs (x, 0)) with (cabs (RtoC x)).
  rewrite cabs_RtoC, Rabs_right by lra. cbn [Re Im fst snd].
  replace ((x + x) / 2) with x by field.
  replace ((x - x) / 2) with 0 by field. rewrite sqrt_0.
  f_equal. ring.
Qed.

(** The square root of a negative real lies on the positive imaginary axis. *)
Lemma csqrt_neg_real (x : R) : x < 0 -> csqrt (x, 0) = (0, sqrt (- x)).
Proof.
  intros Hx. unfold csqrt. change (cabs (x, 0)) with (cabs (RtoC x)).
  rewrite cabs_RtoC, Rabs_left by lra. cbn [Re Im fst snd].
  replace ((- x + x) / 2) with 0 by field.
  replace ((- x - x) / 2) with (- x) by field. rewrite sqrt_0.
  destruct (Rle_dec 0 0) as [_ | H]; [ | lra]. f_equal. ring.
Qed.

(** ** The root on a signed zero *)

Lemma np_sqrt_off_axis (z : Cplx) (b : bool) :
  Im z <> 0 -> np_sqrt z b = csqrt z.
Proof.
  intros Hz. unfold np_sqrt, is_zero.
  destruct (Req_dec_T (Im z) 0) as [H | _]; [contradiction | ].
  rewrite andb_false_r. reflexivity.
Qed.

Lemma np_sqrt_nonneg_real (x : R) (b : bool) :
  0 <= x -> np_sqrt (x, 0) b = (sqrt x, 0).
Proof.
  intros Hx. unfold np_sqrt. rewrite csqrt_nonneg_real by exact Hx.
  destruct (b && is_zero (Im (x, 0))); [ | reflexivity].
  cbn [Re Im fst snd]. rewrite Ropp_0. reflexivity.
Qed.

Lemma np_sqrt_neg_real (x : R) :
  x < 0 -> np_sqrt (x, 0) true = (0, - sqrt (- x)).
Proof.
  intros Hx. unfold np_sqrt, is_zero. rewrite csqrt_neg_real by exact Hx.
  cbn [Re Im fst snd andb].
  destruct (Req_dec_T 0 0) as [_ | H]; [reflexivity | contradiction].
Qed.

Lemma np_sqrt_re (z : Cplx) (b : bool) : Re (np_sqrt z b) = Re (csqrt z).
Proof. unfold np_sqrt. destruct (b && is_zero (Im z)); reflexivity. Qed.

Lemma np_sqrt_sqr (z : Cplx) (b : bool) : (np_sqrt z b * np_sqrt z b = z)%C.
Proof.
  unfold np_sqrt, is_zero.
  destruct (Req_dec_T (Im z) 0) as [Hz | Hz].
  - destruct b; cbn [andb]; [ | apply csqrt_sqr].
    pose proof (csqrt_sqr z) as H.
    destruct (csqrt z) as [p q], z as [x y]. cbn [Re Im fst snd] in *.
    unfold cmul in *; cbn [Re Im fst snd] in *.
    inversion H as [[H1 H2]]. subst y.
    f_equal; [ring | lra].
  - rewrite andb_false_r. apply csqrt_sqr.
Qed.

Lemma is_neg_nonneg (x : R) : 0 <= x -> is_neg x = false.
Proof. intros Hx. unfold is_neg. destruct (Rlt_dec x 0); [lra | reflexivity]. Qed.

Lemma is_neg_neg (x : R) : x < 0 -> is_neg x = true.
Proof. intros Hx. unfold is_neg. destruct (Rlt_dec x 0); [reflexivity | lra]. Qed.

Lemma is_zero_0 : is_zero 0 = true.
Proof. unfold is_zero. destruct (Req_dec_T 0 0); [reflexivity | contradiction]. Qed.

(** No negative operand, no negative zero. *)
Lemma cmul_im_pos_zero (z w : Cplx) :
  0 <= Re z -> 0 <= Im w -> cmul_im_neg_zero z w = false.
Proof.
  intros Ha Hd. unfold cmul_im_neg_zero, mul_neg_zero.
  rewrite (is_neg_nonneg _ Ha), (is_neg_nonneg _ Hd).
  rewrite andb_false_r. reflexivity.
Qed.

Lemma cdiv_im_pos_zero (z w : Cplx) :
  0 <= Im z -> 0 <= Re w -> 0 <= Im w -> cdiv_im_neg_zero z w = false.
Proof.
  intros Hb Hc Hd. unfold cdiv_im_neg_zero.
  rewrite (is_neg_nonneg _ Hb), (is_neg_nonneg _ Hc), (is_neg_nonneg _ Hd).
  destruct (Rle_dec (Rabs (Im w)) (Rabs (Re w))); [reflexivity | ].
  destruct (Req_dec_T (Re z) 0); [ | reflexivity].
  rewrite andb_false_r. reflexivity.
Qed.

(** ** Hyperbolic and circular functions *)

Lemma cosh_plus (x y : R) : cosh (x + y) = cosh x * cosh y + sinh x * sinh y.
Proof.
  unfold cosh, sinh. rewrite Ropp_plus_distr, !exp_plus. field.
Qed.

Lemma sinh_plus (x y : R) : sinh (x + y) = sinh x * cosh y + cosh x * sinh y.
Proof.
  unfold cosh, sinh. rewrite Ropp_plus_distr, !exp_plus. field.
Qed.

Lemma ccosh_0 : ccosh C0 = C1.
Proof.
  unfold ccosh, C0, C1; simpl. rewrite cosh_0, sinh_0, cos_0, sin_0.
  f_equal; ring.
Qed.

Lemma csinh_0 : csinh C0 = C0.
Proof.
  unfold csinh, C0; simpl. rewrite cosh_0, sinh_0, cos_0, sin_0.
  f_equal; ring.
Qed.

Lemma ccosh_plus (z w : Cplx) :
  (ccosh (z + w) = ccosh z * ccosh w + csinh z * csinh w)%C.
Proof.
  destruct z as [a b], w as [c d]. unfold ccosh, csinh; cplx_unfold.
  rewrite cosh_plus, sinh_plus, cos_plus, sin_plus. f_equal; ring.
Qed.

Lemma csinh_plus (z w : Cplx) :
  (csinh (z + w) = csinh z * ccosh w + ccosh z * csinh w)%C.
Proof.
  destruct z as [a b], w as [c d]. unfold ccosh, csinh; cplx_unfold.
  rewrite cosh_plus, sinh_plus, cos_plus, sin_plus. f_equal; ring.
Qed.

Lemma cmul_RtoC_0 (z : Cplx) : (z * RtoC 0 = C0)%C.
Proof. destruct z; cplx_unfold; f_equal; ring. Qed.

Lemma cmul_RtoC_plus (z : Cplx) (x y : R) :
  (z * RtoC (x + y) = z * RtoC x + z * RtoC y)%C.
Proof. destruct z; cplx_unfold; f_equal; ring. Qed.

(** ** The real axis *)

Lemma cmul_RtoC_real (x y : R) : (RtoC x * (y, 0))%C = (x * y, 0).
Proof. cplx_unfold; f_equal; ring. Qed.

Lemma cadd_real (x y : R) : ((x, 0) + RtoC y)%C = (x + y, 0).
Proof. cplx_unfold; f_equal; ring. Qed.

Lemma cdiv_real (x y : R) : y <> 0 -> ((x, 0) / RtoC y)%C = (x / y, 0).
Proof. intros Hy. cplx_unfold; f_equal; field; exact Hy. Qed.

Lemma clt_lex_real_0 (x : R) :
  clt_lex (x, 0) C0 = if Rlt_dec x 0 then true else false.
Proof.
  unfold clt_lex, C0; cbn [Re Im fst snd].
  destruct (Rlt_dec x 0) as [H | H]; [reflexivity | ].
  destruct (Req_dec_T x 0); [ | reflexivity].
  destruct (Rlt_dec 0 0); [lra | reflexivity].
Qed.

Lemma carctan_real (x : R) : carctan (x, 0) = (atan x, 0).
Proof.
  unfold carctan.
  replace (C1 - Ci * (x, 0))%C with ((1, - x) : Cplx)
    by (cplx_unfold; f_equal; ring).
  replace (C1 + Ci * (x, 0))%C with ((1, x) : Cplx)
    by (cplx_unfold; f_equal; ring).
  unfold clog, carg; cbn [Re Im fst snd].
  destruct (Rlt_dec 0 1) as [_ | Hn]; [ | lra].
  replace (cabs (1, - x)) with (cabs (1, x))
    by (unfold cabs, cnorm2; cbn [Re Im fst snd]; f_equal; ring).
  unfold Rdiv. rewrite Rinv_1, !Rmult_1_r, atan_opp.
  cplx_unfold. f_equal; field.
Qed.

(** ** tl_metrics.py and tl_abcd.py *)

(** Whatever the load, finite or not, the metrics return a value. *)
Lemma gamma_of_impedance_total (ZL : ext Cplx) (Z0 : Cplx) :
  exists g : ext Cplx, gamma_of_impedance ZL Z0 = Ok g.
Proof.
  unfold gamma_of_impedance.
  destruct ZL as [zl | | ]; try (eexists; reflexivity).
  destruct (Rlt_dec (cabs (zl + Z0)) 1e-12) as [Hs | Hs].
  - eexists; reflexivity.
  - rewrite py_cdiv_ok by (apply cabs_not_small_nonzero, Hs).
    eexists; reflexivity.
Qed.

Lemma vswr_from_gamma_total (g : ext Cplx) :
  exists v : ext R, vswr_from_gamma g = Ok v.
Proof.
  unfold vswr_from_gamma.
  destruct g as [z | | ]; try (eexists; reflexivity).
  destruct (Rge_dec (cabs z) 1) as [Hge | Hlt].
  - eexists; reflexivity.
  - rewrite py_rdiv_ok by lra. eexists; reflexivity.
Qed.

(** C4.  Degenerate denominators are saturated: [z_in_from_abcd] returns
    the sentinel [Inf] when |C*ZL + D| < 1e-12 and the finite quotient
    (A*ZL + B)/(C*ZL + D) otherwise; [gamma_of_impedance] returns exactly 1
    when |ZL + Z0| < 1e-12 and (ZL - Z0)/(ZL + Z0) otherwise.  Neither
    raises: the first has no failing path, the second returns [Ok] on every
    load (a non-finite one included), and no division meets a zero
    divisor. *)
Theorem degenerate_denominators_saturate :
  (forall (M : ABCD) (ZL : Cplx),
      z_in_from_abcd M ZL =
        if Rlt_dec (cabs (mC M * ZL + mD M)) 1e-12 then Inf
        else Fin ((mA M * ZL + mB M) / (mC M * ZL + mD M))%C) /\
  (forall ZL Z0 : Cplx,
      gamma_of_impedance (Fin ZL) Z0 =
        Ok (if Rlt_dec (cabs (ZL + Z0)) 1e-12 then Fin C1
            else Fin ((ZL - Z0) / (ZL + Z0))%C)) /\
  (forall (ZL : ext Cplx) (Z0 : Cplx),
      exists g : ext Cplx, gamma_of_impedance ZL Z0 = Ok g).
Proof.
  split; [ | split; [ | exact gamma_of_impedance_total]].
  - intros M ZL. unfold z_in_from_abcd.
    destruct (Rlt_dec (cabs (mC M * ZL + mD M)) 1e-12) as [Hs | Hs].
    + reflexivity.
    + apply np_cdiv_fin, cabs_not_small_nonzero, Hs.
  - intros ZL Z0. unfold gamma_of_impedance.
    destruct (Rlt_dec (cabs (ZL + Z0)) 1e-12) as [Hs | Hs].
    + reflexivity.
    + rewrite py_cdiv_ok by (apply cabs_not_small_nonzero, Hs). reflexivity.
Qed.

(** C10.  For every complex reflection coefficient, [vswr_from_gamma]
    returns (never raises) positive infinity when |Gamma| >= 1 and
    (1 + |Gamma|)/(1 - |Gamma|) otherwise, and the value is at least 1. *)
Theorem vswr_at_least_one (g : Cplx) :
  exists v : ext R,
    vswr_from_gamma (Fin g) = Ok v /\
    v = (if Rge_dec (cabs g) 1 then Inf
         else Fin ((1 + cabs g) / (1 - cabs g))) /\
    at_least_one v.
Proof.
  unfold vswr_from_gamma.
  destruct (Rge_dec (cabs g) 1) as [Hge | Hlt].
  - exists Inf. repeat split.
  - pose proof (cabs_nonneg g) as H0.
    rewrite py_rdiv_ok by lra.
    eexists; repeat split. simpl.
    assert (Hi : 0 < / (1 - cabs g)) by (apply Rinv_0_lt_compat; lra).
    assert (He : (1 - cabs g) * / (1 - cabs g) = 1) by (field; lra).
    unfold Rdiv. nra.
Qed.

Lemma matmul_eye2_l (M : ABCD) : matmul eye2 M = M.
Proof.
  destruct M as [a b c d]. unfold matmul, eye2; simpl.
  rewrite !cmul_1_l, !cmul_0_l, !cadd_0_l, !cadd_0_r. reflexivity.
Qed.

Lemma abcd_of_tline_ok (gamma Z0 : Cplx) (len : R) :
  Z0 <> C0 ->
  abcd_of_tline gamma Z0 len =
    Ok (mkABCD (ccosh (gamma * RtoC len))
               (Z0 * csinh (gamma * RtoC len))%C
               (C1 / Z0 * csinh (gamma * RtoC len))%C
               (ccosh (gamma * RtoC len))).
Proof.
  intros HZ. unfold abcd_of_tline. rewrite py_cdiv_ok by exact HZ. reflexivity.
Qed.

(** C8.  A zero-length line is the identity of the two-port algebra: for
    every gamma, every non-zero Z0 and every load ZL, the line matrix of
    length 0 exists and its input impedance is ZL. *)
Theorem zero_length_line_identity (gamma Z0 ZL : Cplx) :
  Z0 <> C0 ->
  exists M : ABCD,
    abcd_of_tline gamma Z0 0 = Ok M /\ z_in_from_abcd M ZL = Fin ZL.
Proof.
  intros HZ. rewrite abcd_of_tline_ok by exact HZ.
  eexists; split; [reflexivity | ].
  rewrite cmul_RtoC_0, ccosh_0, csinh_0, !cmul_0_r.
  unfold z_in_from_abcd; cbn [mA mB mC mD].
  rewrite cmul_0_l, cadd_0_l, cmul_1_l, cadd_0_r, cabs_C1.
  destruct (Rlt_dec 1 1e-12) as [H | _]; [lra | ].
  rewrite np_cdiv_fin by (unfold C1, C0; intros H; inversion H; lra).
  rewrite cdiv_1_r. reflexivity.
Qed.

Lemma zero_length_line_identity_witness :
  (50, 0) <> C0 /\
  exists M : ABCD,
    abcd_of_tline Ci (50, 0) 0 = Ok M /\
    z_in_from_abcd M (100, 50) = Fin (100, 50).
Proof.
  assert (H : (50, 0) <> C0) by (unfold C0; intros H; inversion H; lra).
  split; [exact H | exact (zero_length_line_identity Ci (50, 0) (100, 50) H)].
Defined.

(** C9.  Line-segment matrices are additive in length: for every gamma,
    every non-zero Z0 and all lengths l1, l2, the cascade of the line
    matrices of lengths l1 and l2 is the line matrix of length l1 + l2. *)
Theorem line_matrices_additive (gamma Z0 : Cplx) (l1 l2 : R) :
  Z0 <> C0 ->
  exists M1 M2 M12 : ABCD,
    abcd_of_tline gamma Z0 l1 = Ok M1 /\
    abcd_of_tline gamma Z0 l2 = Ok M2 /\
    abcd_of_tline gamma Z0 (l1 + l2) = Ok M12 /\
    cascade_abcd [M1; M2] = M12.
Proof.
  intros HZ. rewrite !abcd_of_tline_ok by exact HZ.
  do 3 eexists. repeat split.
  unfold cascade_abcd; cbn [fold_left]. rewrite matmul_eye2_l.
  rewrite cmul_RtoC_plus, ccosh_plus, csinh_plus.
  set (c1 := ccosh (gamma * RtoC l1)). set (s1 := csinh (gamma * RtoC l1)).
  set (c2 := ccosh (gamma * RtoC l2)). set (s2 := csinh (gamma * RtoC l2)).
  pose proof (cmul_cinv_r Z0 HZ) as Hinv.
  set (y := (C1 / Z0)%C) in *.
  unfold matmul; cbn [mA mB mC mD].
  assert (HA : (c1 * c2 + Z0 * s1 * (y * s2) = c1 * c2 + s1 * s2)%C).
  { replace (Z0 * s1 * (y * s2))%C with ((Z0 * y) * (s1 * s2))%C.
    - rewrite Hinv, cmul_1_l. reflexivity.
    - clear; cplx_destruct; cplx_unfold; f_equal; ring. }
  assert (HD : (y * s1 * (Z0 * s2) + c1 * c2 = c1 * c2 + s1 * s2)%C).
  { replace (y * s1 * (Z0 * s2) + c1 * c2)%C
      with (c1 * c2 + (Z0 * y) * (s1 * s2))%C.
    - rewrite Hinv, cmul_1_l. reflexivity.
    - clear; cplx_destruct; cplx_unfold; f_equal; ring. }
  rewrite HA, HD. f_equal.
  - clear; cplx_destruct; cplx_unfold; f_equal; ring.
  - clear; cplx_destruct; cplx_unfold; f_equal; ring.
Qed.

Lemma line_matrices_additive_witness :
  (50, 0) <> C0 /\
  exists M1 M2 M12 : ABCD,
    abcd_of_tline Ci (50, 0) (1 / 10) = Ok M1 /\
    abcd_of_tline Ci (50, 0) (1 / 4) = Ok M2 /\
    abcd_of_tline Ci (50, 0) (1 / 10 + 1 / 4) = Ok M12 /\
    cascade_abcd [M1; M2] = M12.
Proof.
  assert (H : (50, 0) <> C0) by (unfold C0; intros H; inversion H; lra).
  split; [exact H | exact (line_matrices_additive Ci (50, 0) (1 / 10) (1 / 4) H)].
Defined.

(** ** tl_basics.py *)

Lemma series_impedance_eq (R_ L f : R) :
  (RtoC R_ + Ci * RtoC (2 * PI * f) * RtoC L)%C = line_Z R_ L f.
Proof. unfold line_Z; cplx_unfold; f_equal; ring. Qed.

Lemma gamma_Z0_signed (R_ L G C f : R) :
  line_Z G C f <> C0 ->
  gamma_Z0 R_ L G C f =
    Ok (np_sqrt (line_Z R_ L f * line_Z G C f)%C
                (cmul_im_neg_zero (line_Z R_ L f) (line_Z G C f)),
        np_sqrt (line_Z R_ L f / line_Z G C f)%C
                (cdiv_im_neg_zero (line_Z R_ L f) (line_Z G C f))).
Proof.
  intros HY. unfold gamma_Z0. rewrite !series_impedance_eq.
  rewrite py_cdiv_ok by exact HY. reflexivity.
Qed.

(** With non-negative line parameters and frequency no zero is negative:
    both roots are the principal ones. *)
Lemma gamma_Z0_ok (R_ L G C f : R) :
  0 <= R_ -> 0 <= L -> 0 <= G -> 0 <= C -> 0 <= f ->
  line_Z G C f <> C0 ->
  gamma_Z0 R_ L G C f =
    Ok (csqrt (line_Z R_ L f * line_Z G C f),
        csqrt (line_Z R_ L f / line_Z G C f))%C.
Proof.
  intros HR HL HG HC Hf HY. pose proof PI_RGT_0 as Hpi.
  rewrite gamma_Z0_signed by exact HY.
  assert (Hw : 0 <= 2 * PI * f) by nra.
  assert (HwL : 0 <= 2 * PI * f * L) by (apply Rmult_le_pos; assumption).
  assert (HwC : 0 <= 2 * PI * f * C) by (apply Rmult_le_pos; assumption).
  rewrite cmul_im_pos_zero, cdiv_im_pos_zero by (unfold line_Z; assumption).
  reflexivity.
Qed.

Lemma gamma_Z0_raises (R_ L G C f : R) :
  line_Z G C f = C0 ->
  gamma_Z0 R_ L G C f = Raise ZeroDivisionError.
Proof.
  intros HY. unfold gamma_Z0. rewrite !series_impedance_eq.
  unfold py_cdiv. destruct (Ceq_dec (line_Z G C f) C0); [reflexivity | contradiction].
Qed.

Lemma cabs_gt_re (z : Cplx) : Im z <> 0 -> Rabs (Re z) < cabs z.
Proof.
  intros Hb. unfold cabs, cnorm2.
  rewrite <- sqrt_Rsqr_abs. apply sqrt_lt_1_alt. unfold Rsqr.
  split; [nra | ].
  assert (0 < Im z * Im z) by nra. lra.
Qed.

Lemma csqrt_im_pos (z : Cplx) :
  0 <= Im z -> 0 < Im z \/ Re z < 0 -> 0 < Im (csqrt z).
Proof.
  intros Hb Hcase. unfold csqrt; cbn [Im snd].
  destruct (Rle_dec 0 (Im z)) as [_ | H]; [ | contradiction].
  rewrite Rmult_1_l. apply sqrt_lt_R0.
  destruct Hcase as [Hpos | Hneg].
  - pose proof (cabs_gt_re z ltac:(lra)) as H.
    pose proof (Rle_abs (Re z)). lra.
  - pose proof (cabs_nonneg z). lra.
Qed.

Lemma csqrt_re_pos (z : Cplx) :
  Im z <> 0 \/ 0 < Re z -> 0 < Re (csqrt z).
Proof.
  intros Hcase. unfold csqrt; cbn [Re fst]. apply sqrt_lt_R0.
  destruct Hcase as [Hb | Ha].
  - pose proof (cabs_gt_re z Hb) as H.
    pose proof (Rle_abs (- Re z)) as H'. rewrite Rabs_Ropp in H'. lra.
  - pose proof (cabs_nonneg z). lra.
Qed.

(** For a passive line at a non-negative frequency the phase constant is
    never negative. *)
Lemma beta_nonneg (R_ L G C f : R) :
  0 <= R_ -> 0 <= L -> 0 <= G -> 0 <= C -> 0 <= f ->
  0 <= Im (csqrt (line_Z R_ L f * line_Z G C f)).
Proof.
  intros HR HL HG HC Hf. pose proof PI_RGT_0 as Hpi.
  assert (Hw : 0 <= 2 * PI * f) by nra.
  unfold csqrt; cbn [Im snd].
  destruct (Rle_dec 0 (Im (line_Z R_ L f * line_Z G C f)%C)) as [_ | Hn].
  - rewrite Rmult_1_l. apply sqrt_pos.
  - exfalso; apply Hn. unfold line_Z; cplx_unfold.
    set (w := 2 * PI * f) in *.
    assert (0 <= w * C) by nra. assert (0 <= w * L) by nra. nra.
Qed.

Lemma lossless_product (L C f : R) :
  (line_Z 0 L f * line_Z 0 C f)%C
  = (- (2 * PI * f * L * (2 * PI * f * C)), 0).
Proof. unfold line_Z; cplx_unfold; f_equal; ring. Qed.

Lemma lossless_quotient (L C f : R) :
  2 * PI * f * C <> 0 ->
  (line_Z 0 L f / line_Z 0 C f)%C = (L / C, 0).
Proof.
  intros Hw. unfold line_Z; cplx_unfold.
  assert (f <> 0) by (intros ->; apply Hw; ring).
  assert (C <> 0) by (intros ->; apply Hw; ring).
  pose proof PI_RGT_0.
  f_equal; field; repeat split; lra.
Qed.

(** On a lossless line with L = C the phase constant is omega * L and the
    characteristic impedance is 1. *)
Lemma gamma_Z0_unit_line (c f : R) :
  0 < c -> 0 < f ->
  gamma_Z0 0 c 0 c f = Ok ((0, 2 * PI * f * c), (1, 0)).
Proof.
  intros Hc Hf. pose proof PI_RGT_0 as Hpi.
  assert (Hw : 0 < 2 * PI * f * c).
  { apply Rmult_lt_0_compat; [ | exact Hc].
    apply Rmult_lt_0_compat; lra. }
  rewrite gamma_Z0_ok
    by (try lra; unfold line_Z, C0; intros E; inversion E; lra).
  rewrite lossless_product, lossless_quotient by lra.
  rewrite csqrt_neg_real by nra. rewrite Ropp_involutive, sqrt_square by lra.
  rewrite csqrt_nonneg_real
    by (apply Rlt_le, Rdiv_lt_0_compat; assumption).
  replace (c / c) with 1 by (field; lra). rewrite sqrt_1. reflexivity.
Qed.

(** C3, as stated, fails on a purely resistive line: with L = C = 0 the
    propagation constant is real. *)
Lemma principal_branch_counterexample : ~ principal_branch_claim 1 0 1 0 1.
Proof.
  unfold principal_branch_claim. intros H.
  destruct (H Rlt_0_1) as (g & z & Hret & Him & _).
  assert (HY : line_Z 1 0 1 = (1, 0))
    by (unfold line_Z; f_equal; ring).
  rewrite gamma_Z0_ok in Hret
    by (try lra; rewrite HY; unfold C0; intros E; inversion E; lra).
  rewrite HY in Hret.
  replace ((1, 0) * (1, 0))%C with ((1, 0) : Cplx) in Hret
    by (cplx_unfold; f_equal; ring).
  rewrite csqrt_nonneg_real in Hret by lra.
  inversion Hret; subst g. simpl in Him. lra.
Qed.

(** C3, amended.  For non-negative R, L, G, C and f > 0, [gamma_Z0] returns
    gamma with Im(gamma) > 0 and Z0 with Re(Z0) > 0 exactly when
    R*C + L*G + L*C > 0 (in particular whenever L > 0 and C > 0). *)
Theorem principal_branch_invariant (R_ L G C f : R) :
  0 <= R_ -> 0 <= L -> 0 <= G -> 0 <= C -> 0 < f ->
  (0 < R_ * C + L * G + L * C <->
   exists gamma Z0 : Cplx,
     gamma_Z0 R_ L G C f = Ok (gamma, Z0) /\ 0 < Im gamma /\ 0 < Re Z0).
Proof.
  intros HR HL HG HC Hf. pose proof PI_RGT_0 as Hpi.
  assert (Hw : 0 < 2 * PI * f) by nra.
  split.
  - intros Hpos.
    assert (HY : line_Z G C f <> C0).
    { unfold line_Z, C0; intros E; inversion E as [[EG EC]].
      assert (C = 0) by nra. subst. nra. }
    rewrite gamma_Z0_ok by (try lra; exact HY).
    do 2 eexists; split; [reflexivity | ].
    pose proof (cnorm2_pos _ HY) as Hn.
    unfold line_Z in *; set (w := 2 * PI * f) in *.
    assert (HwC : 0 <= w * C) by nra. assert (HwL : 0 <= w * L) by nra.
    split.
    + apply csqrt_im_pos; cplx_unfold; [nra | ].
      destruct (Rlt_dec 0 (R_ * C + L * G)) as [Hb | Hb].
      * left. nra.
      * right. assert (Hz : R_ * C + L * G = 0) by nra.
        assert (HLC : 0 < L * C) by nra.
        assert (HLp : 0 < L) by nra. assert (HCp : 0 < C) by nra.
        assert (R_ = 0) by nra. assert (G = 0) by nra. subst.
        assert (0 < (w * L) * (w * C)) by (apply Rmult_lt_0_compat; nra).
        lra.
    + apply csqrt_re_pos; cplx_unfold.
      assert (Hin : 0 < / (G * G + w * C * (w * C)))
        by (apply Rinv_0_lt_compat; exact Hn).
      destruct (Rlt_dec 0 (R_ * G + w * L * (w * C))) as [Ha | Ha].
      * right. unfold Rdiv. apply Rmult_lt_0_compat; assumption.
      * left. unfold Rdiv. apply Rmult_integral_contrapositive_currified; [ | lra].
        assert (HRG : R_ * G = 0) by nra.
        assert (HLC : w * L * (w * C) = 0) by nra.
        assert (HLC' : L * C = 0).
        { assert (E : w * L * (w * C) = (w * w) * (L * C)) by ring.
          rewrite E in HLC. apply Rmult_integral in HLC.
          destruct HLC as [Hww | ]; [nra | assumption]. }
        destruct (Req_dec_T L 0) as [HL0 | HL0].
        -- subst L. assert (0 < R_ * C) by nra.
           assert (0 < w * (R_ * C)) by (apply Rmult_lt_0_compat; assumption).
           nra.
        -- assert (HC0 : C = 0).
           { apply Rmult_integral in HLC'. tauto. }
           subst C. assert (0 < L * G) by nra.
           assert (0 < w * (L * G)) by (apply Rmult_lt_0_compat; assumption).
           nra.
  - intros (g & z & Hret & Him & _).
    destruct (Rlt_dec 0 (R_ * C + L * G + L * C)) as [Hpos | Hn]; [exact Hpos | ].
    exfalso.
    assert (HRC : R_ * C = 0) by nra.
    assert (HLG : L * G = 0) by nra.
    assert (HLC : L * C = 0) by nra.
    destruct (Ceq_dec (line_Z G C f) C0) as [HY | HY].
    + rewrite gamma_Z0_raises in Hret by exact HY. discriminate.
    + rewrite gamma_Z0_ok in Hret by (try lra; exact HY).
      inversion Hret; subst g z. clear Hret.
      replace (line_Z R_ L f * line_Z G C f)%C with ((R_ * G, 0) : Cplx) in Him.
      * rewrite csqrt_nonneg_real in Him by nra. simpl in Him. lra.
      * unfold line_Z; cplx_unfold. set (w := 2 * PI * f).
        f_equal.
        -- transitivity (R_ * G - w * w * (L * C)); [rewrite HLC; ring | ring].
        -- transitivity (w * (R_ * C) + w * (L * G)); [rewrite HRC, HLG; ring | ring].
Qed.

Lemma principal_branch_invariant_witness :
  0 < 0 * 1 + 1 * 0 + 1 * 1 <->
  exists gamma Z0 : Cplx,
    gamma_Z0 0 1 0 1 1 = Ok (gamma, Z0) /\ 0 < Im gamma /\ 0 < Re Z0.
Proof.
  apply (principal_branch_invariant 0 1 0 1 1); lra.
Defined.

(** ** tl_matching.py: the quarter-wave transformer *)

Lemma isclose_0_true (b : R) : isclose b 0 = true <-> Rabs b <= 1e-8.
Proof.
  unfold isclose. rewrite Rminus_0_r, Rabs_R0.
  destruct (Rle_dec (Rabs b) (1e-8 + 1e-5 * 0)) as [H | H];
    split; intros H'; try reflexivity; try discriminate; lra.
Qed.

Lemma isclose_0_false (b : R) : isclose b 0 = false <-> 1e-8 < Rabs b.
Proof.
  unfold isclose. rewrite Rminus_0_r, Rabs_R0.
  destruct (Rle_dec (Rabs b) (1e-8 + 1e-5 * 0)) as [H | H];
    split; intros H'; try reflexivity; try discriminate; lra.
Qed.

Lemma quarter_wave_raises (R_ L G C f0 : R) (ZL gamma Z0 : Cplx) :
  gamma_Z0 R_ L G C f0 = Ok (gamma, Z0) ->
  isclose (Im gamma) 0 = true ->
  quarter_wave_transform R_ L G C f0 ZL =
    Raise (ValueError
             "Quarter-wave undefined: beta (imag part of gamma) is zero.").
Proof.
  intros Hg Hc. unfold quarter_wave_transform. rewrite Hg; cbn [bind fst snd].
  rewrite Hc. reflexivity.
Qed.

(** Past the guard, with a non-zero load, the transformer input impedance
    is Z0 itself. *)
Lemma quarter_wave_past_guard (R_ L G C f0 : R) (ZL gamma Z0 : Cplx) :
  gamma_Z0 R_ L G C f0 = Ok (gamma, Z0) ->
  isclose (Im gamma) 0 = false ->
  ZL <> C0 ->
  quarter_wave_transform R_ L G C f0 ZL =
    (Gamma_in <- gamma_of_impedance (Fin Z0) Z0 ;;
     VSWR_src <- vswr_from_gamma Gamma_in ;;
     Ok (mkQWT VSWR_src (PI / (2 * Im gamma)) (csqrt (Z0 * ZL)) 1)).
Proof.
  intros Hg Hc HZL. unfold quarter_wave_transform.
  rewrite Hg; cbn [bind fst snd]. rewrite Hc.
  rewrite csqrt_sqr, np_cdiv_fin, cmul_cdiv_cancel by exact HZL.
  reflexivity.
Qed.

(** With a zero load the quotient Zt**2 / ZL is 0/0: the reported VSWR is
    [nan]. *)
Lemma quarter_wave_zero_load (R_ L G C f0 : R) (gamma Z0 : Cplx) :
  gamma_Z0 R_ L G C f0 = Ok (gamma, Z0) ->
  isclose (Im gamma) 0 = false ->
  exists res : QWTMatchResult,
    quarter_wave_transform R_ L G C f0 C0 = Ok res /\ qwt_VSWR_src res = NaN.
Proof.
  intros Hg Hc. unfold quarter_wave_transform.
  rewrite Hg; cbn [bind fst snd]. rewrite Hc.
  rewrite csqrt_sqr, cmul_0_r. unfold np_cdiv.
  destruct (Ceq_dec C0 C0) as [_ | H]; [ | contradiction].
  cbn. eexists; split; reflexivity.
Qed.

(** At a negative frequency the phase constant, and with it the reported
    quarter-wave length, is negative. *)
Lemma quarter_wave_negative_frequency :
  exists res : QWTMatchResult,
    quarter_wave_transform 1 1 1 1 (-1) (2, 0) = Ok res /\
    qwt_l_qw res = - / 4.
Proof.
  pose proof PI_RGT_0 as Hpi. pose proof PI2_1 as Hpi2.
  assert (HZ : line_Z 1 1 (-1) = (1, - (2 * PI)))
    by (unfold line_Z; f_equal; ring).
  assert (HYn : line_Z 1 1 (-1) <> C0)
    by (rewrite HZ; apply pair_nonzero_l; lra).
  assert (Hprod : (line_Z 1 1 (-1) * line_Z 1 1 (-1))%C
                  = (1 - 2 * PI * (2 * PI), - (4 * PI))).
  { rewrite HZ. cplx_unfold. f_equal; ring. }
  assert (Hquot : (line_Z 1 1 (-1) / line_Z 1 1 (-1))%C = (1, 0)).
  { rewrite HZ. cplx_unfold. f_equal; field; nra. }
  assert (Habs : cabs (1 - 2 * PI * (2 * PI), - (4 * PI))
                 = 1 + 2 * PI * (2 * PI)).
  { unfold cabs, cnorm2; cbn [Re Im fst snd].
    replace ((1 - 2 * PI * (2 * PI)) * (1 - 2 * PI * (2 * PI))
             + - (4 * PI) * - (4 * PI))
      with ((1 + 2 * PI * (2 * PI)) * (1 + 2 * PI * (2 * PI))) by ring.
    apply sqrt_square. nra. }
  assert (Hg : gamma_Z0 1 1 1 1 (-1) = Ok ((1, - (2 * PI)), (1, 0))).
  { rewrite gamma_Z0_signed by exact HYn. rewrite Hprod, Hquot.
    rewrite np_sqrt_nonneg_real by lra. rewrite sqrt_1.
    rewrite np_sqrt_off_axis by (cbn [Im snd]; lra).
    unfold csqrt. rewrite Habs. cbn [Re Im fst snd].
    destruct (Rle_dec 0 (- (4 * PI))) as [Hn | _]; [lra | ].
    replace ((1 + 2 * PI * (2 * PI) + (1 - 2 * PI * (2 * PI))) / 2)
      with 1 by field.
    replace ((1 + 2 * PI * (2 * PI) - (1 - 2 * PI * (2 * PI))) / 2)
      with (2 * PI * (2 * PI)) by field.
    rewrite sqrt_1, sqrt_square by lra.
    replace (-1 * (2 * PI)) with (- (2 * PI)) by ring. reflexivity. }
  assert (Hc : isclose (Im (1, - (2 * PI))) 0 = false).
  { apply isclose_0_false. cbn [Im snd]. rewrite Rabs_left by lra. lra. }
  rewrite (quarter_wave_past_guard _ _ _ _ _ _ _ _ Hg Hc)
    by (apply pair_nonzero_l; lra).
  match goal with
  | |- context [gamma_of_impedance ?z ?z0] =>
      destruct (gamma_of_impedance_total z z0) as [g ->]
  end.
  cbn [bind].
  destruct (vswr_from_gamma_total g) as [v ->]. cbn [bind].
  eexists; split; [reflexivity | ]. cbn [qwt_l_qw Im snd].
  field. lra.
Qed.

(** C1, as stated, fails where the characteristic impedance is so small
    that the reflection-coefficient guard fires: L = 1e-30, C = 1,
    f0 = 1e7 gives beta = 2 pi 1e-8 (not numerically zero) and
    Z0 = 1e-15, so |Zin + Z0| = 2e-15 < 1e-12, Gamma = 1 and the VSWR is
    infinite. *)
Lemma quarter_wave_counterexample :
  ~ quarter_wave_claim 0 1e-30 0 1 1e7 (50, 0).
Proof.
  pose proof PI_RGT_0 as Hpi. pose proof PI2_1 as Hpi2.
  set (w := 2 * PI * 1e7).
  assert (Hw : 0 < w) by (unfold w; lra).
  assert (HZ : line_Z 0 1e-30 1e7 = (0, w * 1e-30)) by reflexivity.
  assert (HY : line_Z 0 1 1e7 = (0, w))
    by (unfold line_Z; fold w; f_equal; ring).
  assert (HYn : line_Z 0 1 1e7 <> C0)
    by (rewrite HY; unfold C0; intros E; inversion E; lra).
  assert (Hprod : (line_Z 0 1e-30 1e7 * line_Z 0 1 1e7)%C
                  = (- (w * 1e-15 * (w * 1e-15)), 0)).
  { rewrite HZ, HY. cplx_unfold. f_equal; lra. }
  assert (Hquot : (line_Z 0 1e-30 1e7 / line_Z 0 1 1e7)%C
                  = (1e-15 * 1e-15, 0)).
  { rewrite HZ, HY. cplx_unfold. f_equal; field; lra. }
  assert (Hg : gamma_Z0 0 1e-30 0 1 1e7 = Ok ((0, w * 1e-15), (1e-15, 0))).
  { rewrite gamma_Z0_ok by (try lra; exact HYn). rewrite Hprod, Hquot.
    rewrite csqrt_neg_real by nra. rewrite Ropp_involutive.
    rewrite csqrt_nonneg_real by lra.
    rewrite !sqrt_square by lra. reflexivity. }
  assert (Hc : isclose (Im (0, w * 1e-15)) 0 = false).
  { apply isclose_0_false. cbn [Im snd]. rewrite Rabs_right by lra.
    unfold w. lra. }
  intros Hclaim.
  destruct (Hclaim _ _ Hg Hc) as (res & Hret & (v & Hv & _) & _).
  rewrite (quarter_wave_past_guard _ _ _ _ _ _ _ _ Hg Hc) in Hret
    by (unfold C0; intros E; inversion E; lra).
  unfold gamma_of_impedance in Hret.
  replace (cabs ((1e-15, 0) + (1e-15, 0))) with 2e-15 in Hret.
  - destruct (Rlt_dec 2e-15 1e-12) as [_ | Hn]; [ | lra].
    cbn [bind] in Hret. unfold vswr_from_gamma in Hret. rewrite cabs_C1 in Hret.
    destruct (Rge_dec 1 1) as [_ | Hn]; [ | lra].
    cbn [bind] in Hret. inversion Hret; subst res.
    cbn in Hv. discriminate.
  - change ((1e-15, 0) + (1e-15, 0))%C with (RtoC 1e-15 + RtoC 1e-15)%C.
    replace (RtoC 1e-15 + RtoC 1e-15)%C with (RtoC 2e-15)
      by (cplx_unfold; f_equal; lra).
    rewrite cabs_RtoC, Rabs_right by lra. reflexivity.
Qed.

(** C1, amended.  Whenever [gamma_Z0] returns (gamma, Z0) with
    beta = Im(gamma) not numerically zero, the load ZL is not zero and
    |2 Z0| >= 1e-12, [quarter_wave_transform] returns VSWR_src = 1,
    l_qw = pi/(2 beta) and Zt = sqrt(Z0 ZL); and l_qw > 0 when R, L, G, C
    and f0 are non-negative. *)
Theorem quarter_wave_invariant (R_ L G C f0 : R) (ZL gamma Z0 : Cplx) :
  gamma_Z0 R_ L G C f0 = Ok (gamma, Z0) ->
  isclose (Im gamma) 0 = false ->
  ZL <> C0 ->
  ~ cabs (Z0 + Z0) < 1e-12 ->
  exists res : QWTMatchResult,
    quarter_wave_transform R_ L G C f0 ZL = Ok res /\
    qwt_VSWR_src res = Fin 1 /\
    qwt_l_qw res = PI / (2 * Im gamma) /\
    qwt_Zt res = csqrt (Z0 * ZL) /\
    (0 <= R_ -> 0 <= L -> 0 <= G -> 0 <= C -> 0 <= f0 -> 0 < qwt_l_qw res).
Proof.
  intros Hg Hc HZL Hbig.
  rewrite (quarter_wave_past_guard _ _ _ _ _ _ _ _ Hg Hc HZL).
  unfold gamma_of_impedance.
  destruct (Rlt_dec (cabs (Z0 + Z0)) 1e-12) as [Hs | _]; [contradiction | ].
  rewrite py_cdiv_ok by (apply cabs_not_small_nonzero, Hbig).
  cbn [bind]. rewrite csub_diag, cdiv_0_l.
  unfold vswr_from_gamma. rewrite cabs_C0.
  destruct (Rge_dec 0 1) as [Hn | _]; [lra | ].
  rewrite py_rdiv_ok by lra. cbn [bind].
  eexists; split; [reflexivity | ]. cbn.
  repeat split.
  - f_equal. field.
  - intros HR HL HG HC Hf.
    assert (Hb : 0 <= Im gamma).
    { destruct (Ceq_dec (line_Z G C f0) C0) as [HY | HY].
      - rewrite gamma_Z0_raises in Hg by exact HY. discriminate.
      - rewrite gamma_Z0_ok in Hg by (try assumption; exact HY).
        inversion Hg. apply beta_nonneg; assumption. }
    apply isclose_0_false in Hc. rewrite Rabs_right in Hc by lra.
    pose proof PI_RGT_0.
    apply Rdiv_lt_0_compat; lra.
Qed.

(** The amended quarter-wave invariant at work on the unit line
    (L = C = 1, f0 = 1) with a load of 2. *)
Lemma quarter_wave_invariant_witness :
  gamma_Z0 0 1 0 1 1 = Ok ((0, 2 * PI * 1 * 1), (1, 0)) /\
  isclose (Im (0, 2 * PI * 1 * 1)) 0 = false /\
  (2, 0) <> C0 /\
  ~ cabs ((1, 0) + (1, 0)) < 1e-12 /\
  exists res : QWTMatchResult,
    quarter_wave_transform 0 1 0 1 1 (2, 0) = Ok res /\
    qwt_VSWR_src res = Fin 1 /\
    qwt_l_qw res = PI / (2 * Im (0, 2 * PI * 1 * 1)) /\
    qwt_Zt res = csqrt ((1, 0) * (2, 0)) /\
    (0 <= 0 -> 0 <= 1 -> 0 <= 0 -> 0 <= 1 -> 0 <= 1 -> 0 < qwt_l_qw res).
Proof.
  assert (Hg : gamma_Z0 0 1 0 1 1 = Ok ((0, 2 * PI * 1 * 1), (1, 0)))
    by exact (gamma_Z0_unit_line 1 1 Rlt_0_1 Rlt_0_1).
  assert (Hc : isclose (Im (0, 2 * PI * 1 * 1)) 0 = false).
  { apply isclose_0_false. cbn [Im snd]. pose proof PI2_1.
    rewrite Rabs_right by lra. lra. }
  assert (HZL : (2, 0) <> C0) by (apply pair_nonzero_l; lra).
  assert (Hbig : ~ cabs ((1, 0) + (1, 0)) < 1e-12).
  { replace ((1, 0) + (1, 0))%C with (RtoC 2) by (cplx_unfold; f_equal; ring).
    rewrite cabs_RtoC, Rabs_right by lra. lra. }
  repeat (split; [assumption | ]).
  exact (quarter_wave_invariant 0 1 0 1 1 (2, 0) _ _ Hg Hc HZL Hbig).
Defined.

(** ** tl_matching.py: the sweep of the single-stub solver *)

Lemma nth_error_snoc {A : Type} (l : list A) (x y : A) (j : nat) :
  nth_error (l ++ [x]) j = Some y ->
  ((j < length l)%nat /\ nth_error l j = Some y) \/ (j = length l /\ y = x).
Proof.
  intros H. destruct (Nat.lt_ge_cases j (length l)) as [Hlt | Hge].
  - left. rewrite nth_error_app1 in H by exact Hlt. auto.
  - right. rewrite nth_error_app2 in H by exact Hge.
    destruct (j - length l)%nat as [ | n] eqn:Hd.
    + simpl in H. inversion H. split; [lia | reflexivity].
    + simpl in H. destruct n; discriminate.
Qed.

Section Sweep.

Variables (Z0 ZL y0 : Cplx) (beta : R).

Lemma sweep_inv_init : sweep_inv Z0 ZL y0 beta [] (1e9, None).
Proof.
  unfold sweep_inv; cbn [fst snd]. repeat split; try lra.
  intros j dj e H. destruct j; discriminate.
Qed.

Lemma sweep_step_inv (seen : list R) (st : sweep_state) (d : R) :
  sweep_inv Z0 ZL y0 beta seen st ->
  sweep_inv Z0 ZL y0 beta (seen ++ [d]) (sweep_step Z0 ZL y0 beta st d).
Proof.
  intros (Hle & Hall & Hbest). destruct st as [m b]; cbn [fst snd] in *.
  unfold sweep_step; cbn [fst snd].
  destruct (Yin_at Z0 ZL beta d) as [Yin | ] eqn:HY.
  - destruct (Rlt_dec (Rabs (Re Yin - Re y0)) m) as [Hlt | Hge].
    + (* the sample improves on min_err: it becomes the recorded one *)
      unfold sweep_inv; cbn [fst snd]. split; [lra | ]. split.
      * intros j dj e Hj He. apply nth_error_snoc in Hj.
        destruct Hj as [[_ Hj] | [_ ->]].
        -- specialize (Hall _ _ _ Hj He). lra.
        -- unfold err_at in He. rewrite HY in He. inversion He. lra.
      * repeat split; [exact HY | lra | ].
        exists (length seen). split.
        -- rewrite nth_error_app2 by lia. rewrite Nat.sub_diag. reflexivity.
        -- intros j dj e Hjk Hj He.
           rewrite nth_error_app1 in Hj by exact Hjk.
           specialize (Hall _ _ _ Hj He). lra.
    + (* no improvement: the state is kept *)
      unfold sweep_inv; cbn [fst snd]. split; [exact Hle | ]. split.
      * intros j dj e Hj He. apply nth_error_snoc in Hj.
        destruct Hj as [[_ Hj] | [_ ->]].
        -- exact (Hall _ _ _ Hj He).
        -- unfold err_at in He. rewrite HY in He. inversion He. lra.
      * destruct b as [[db Yb] | ]; [ | exact Hbest].
        destruct Hbest as (HYb & Hm & Hm9 & k & Hk & Hfirst).
        repeat split; try assumption.
        exists k. split.
        -- rewrite nth_error_app1; [exact Hk | ].
           apply nth_error_Some. rewrite Hk. discriminate.
        -- intros j dj e Hjk Hj He.
           assert (Hkl : (k < length seen)%nat)
             by (apply nth_error_Some; rewrite Hk; discriminate).
           rewrite nth_error_app1 in Hj by lia.
           exact (Hfirst _ _ _ Hjk Hj He).
  - (* the sample has no finite admittance: it is skipped *)
    unfold sweep_inv; cbn [fst snd]. split; [exact Hle | ]. split.
    + intros j dj e Hj He. apply nth_error_snoc in Hj.
      destruct Hj as [[_ Hj] | [_ ->]].
      * exact (Hall _ _ _ Hj He).
      * unfold err_at in He. rewrite HY in He. discriminate.
    + destruct b as [[db Yb] | ]; [ | exact Hbest].
      destruct Hbest as (HYb & Hm & Hm9 & k & Hk & Hfirst).
      repeat split; try assumption.
      assert (Hkl : (k < length seen)%nat)
        by (apply nth_error_Some; rewrite Hk; discriminate).
      exists k. split.
      * rewrite nth_error_app1 by exact Hkl. exact Hk.
      * intros j dj e Hjk Hj He.
        rewrite nth_error_app1 in Hj by lia.
        exact (Hfirst _ _ _ Hjk Hj He).
Qed.

Lemma sweep_fold_inv (ds seen : list R) (st : sweep_state) :
  sweep_inv Z0 ZL y0 beta seen st ->
  sweep_inv Z0 ZL y0 beta (seen ++ ds)
            (fold_left (sweep_step Z0 ZL y0 beta) ds st).
Proof.
  revert seen st. induction ds as [ | d ds IH]; intros seen st Hinv.
  - rewrite app_nil_r. exact Hinv.
  - cbn [fold_left].
    replace (seen ++ d :: ds) with ((seen ++ [d]) ++ ds)
      by (rewrite <- app_assoc; reflexivity).
    apply IH, sweep_step_inv, Hinv.
Qed.

Lemma sweep_inv_final (ds : list R) :
  sweep_inv Z0 ZL y0 beta ds (sweep Z0 ZL y0 beta ds).
Proof.
  unfold sweep. apply (sweep_fold_inv ds []), sweep_inv_init.
Qed.

(** The sweep records a sample as soon as one has an error below 1e9. *)
Lemma sweep_finds (ds : list R) (j : nat) (dj e : R) :
  nth_error ds j = Some dj ->
  err_at Z0 ZL y0 beta dj = Some e ->
  e < 1e9 ->
  snd (sweep Z0 ZL y0 beta ds) <> None.
Proof.
  intros Hj He Hlt Hnone.
  destruct (sweep_inv_final ds) as (_ & Hall & Hbest).
  rewrite Hnone in Hbest. specialize (Hall _ _ _ Hj He). lra.
Qed.

End Sweep.

Lemma linspace_nth (start stop : R) (num k : nat) :
  (k < num)%nat ->
  nth_error (linspace start stop num) k
  = Some (INR k * ((stop - start) / INR (num - 1)) + start).
Proof.
  intros Hk. unfold linspace.
  rewrite nth_error_map, nth_error_seq.
  apply Nat.ltb_lt in Hk. rewrite Hk. reflexivity.
Qed.

Lemma linspace_length (start stop : R) (num : nat) :
  length (linspace start stop num) = num.
Proof. unfold linspace. rewrite length_map, length_seq. reflexivity. Qed.

Lemma INR_999 : INR (1000 - 1) = 999.
Proof.
  replace (1000 - 1)%nat with 999%nat by reflexivity.
  rewrite INR_IZR_INZ. reflexivity.
Qed.

(** The sweep samples are the grid points of [0, lam/2]. *)
Lemma d_sweep_nth (lam : R) (k : nat) :
  (k < 1000)%nat ->
  nth_error (linspace 0 (lam / 2) 1000) k = Some (grid_point lam k).
Proof.
  intros Hk. rewrite linspace_nth by exact Hk. rewrite INR_999.
  unfold grid_point. f_equal. rewrite Rminus_0_r. ring.
Qed.

Lemma d_sweep_nth_inv (lam d : R) (k : nat) :
  nth_error (linspace 0 (lam / 2) 1000) k = Some d ->
  (k < 1000)%nat /\ d = grid_point lam k.
Proof.
  intros H.
  assert (Hk : (k < 1000)%nat).
  { rewrite <- (linspace_length 0 (lam / 2) 1000).
    apply nth_error_Some. rewrite H. discriminate. }
  split; [exact Hk | ].
  rewrite d_sweep_nth in H by exact Hk. inversion H. reflexivity.
Qed.

(** The grid starts at 0 and ends at lam/2. *)
Lemma grid_point_first (lam : R) : grid_point lam 0 = 0.
Proof. unfold grid_point. simpl INR. ring. Qed.

Lemma grid_point_last (lam : R) : grid_point lam 999 = lam / 2.
Proof.
  unfold grid_point.
  replace (INR 999) with 999 by (rewrite INR_IZR_INZ; reflexivity).
  field.
Qed.

(** No grid point is a pole of the tangent: beta * d is k pi / 999, never
    an odd multiple of pi/2. *)
Lemma grid_avoids_tan_poles (beta : R) (k : nat) :
  beta <> 0 -> cos (beta * grid_point (2 * PI / beta) k) <> 0.
Proof.
  intros Hb Hcos. pose proof PI_RGT_0 as Hpi.
  apply cos_eq_0_0 in Hcos. destruct Hcos as [n Hn].
  unfold grid_point in Hn.
  replace (beta * (INR k * (2 * PI / beta / 2 / 999)))
    with (INR k * PI / 999) in Hn by (field; exact Hb).
  assert (E : (2 * INR k - 999 * (2 * IZR n + 1)) * PI = 0).
  { transitivity (2 * 999 * (INR k * PI / 999 - (IZR n * PI + PI / 2)));
      [field | rewrite Hn; ring]. }
  apply Rmult_integral in E. destruct E as [E | E]; [ | lra].
  rewrite INR_IZR_INZ in E.
  assert (E' : IZR (2 * Z.of_nat k) = IZR (999 * (2 * n + 1))).
  { rewrite !mult_IZR, plus_IZR, mult_IZR. lra. }
  apply eq_IZR in E'. lia.
Qed.

(** ** tl_matching.py: the single-stub solver *)

(** Whenever the lossless matching section has a non-zero phase constant,
    the characteristic impedance is a positive real; the phase constant is
    positive when L, C and f0 are non-negative. *)
Lemma lossless_section (L C f0 : R) (gamma Z0 : Cplx) :
  gamma_Z0 0 L 0 C f0 = Ok (gamma, Z0) ->
  Im gamma <> 0 ->
  (exists z0 : R, 0 < z0 /\ Z0 = (z0, 0)) /\
  (0 <= L -> 0 <= C -> 0 <= f0 -> 0 < Im gamma).
Proof.
  intros Hg Hb.
  destruct (Ceq_dec (line_Z 0 C f0) C0) as [HY | HY].
  { rewrite gamma_Z0_raises in Hg by exact HY. discriminate. }
  assert (HwC : 2 * PI * f0 * C <> 0).
  { intros E. apply HY. unfold line_Z, C0. rewrite E. reflexivity. }
  pose proof Hg as Hs. rewrite gamma_Z0_signed in Hs by exact HY.
  rewrite lossless_product, lossless_quotient in Hs by exact HwC.
  inversion Hs as [[Hgam HZ0]]. clear Hs.
  set (a := 2 * PI * f0 * L * (2 * PI * f0 * C)) in *.
  assert (Ha : 0 < a).
  { destruct (Rle_dec a 0) as [Hle | Hgt]; [ | lra].
    exfalso. apply Hb. rewrite <- Hgam.
    rewrite np_sqrt_nonneg_real by lra. reflexivity. }
  split.
  - assert (HLC : 0 < L / C).
    { assert (HC : C <> 0) by (intros ->; apply HwC; ring).
      assert (E : a = (2 * PI * f0 * C) * (2 * PI * f0 * C) * (L / C))
        by (unfold a; field; exact HC).
      assert (Hsq : 0 < (2 * PI * f0 * C) * (2 * PI * f0 * C)) by nra.
      rewrite E in Ha.
      destruct (Rle_dec (L / C) 0) as [Hn | Hp]; [ | lra].
      exfalso. nra. }
    exists (sqrt (L / C)). split.
    + apply sqrt_lt_R0, HLC.
    + apply np_sqrt_nonneg_real. lra.
  - intros HL HC Hf.
    rewrite gamma_Z0_ok in Hg by (try lra; exact HY).
    rewrite lossless_product in Hg. fold a in Hg.
    inversion Hg as [[Hgam' HZ0']]. rewrite Hgam, <- Hgam'.
    rewrite csqrt_neg_real by lra. cbn [Im snd].
    apply sqrt_lt_R0. lra.
Qed.

(** At a negative frequency the product Z Y of the lossless unit line has
    the imaginary part [-0.0]: the propagation constant is on the negative
    imaginary axis. *)
Lemma gamma_Z0_unit_line_reversed (c f : R) :
  0 < c -> f < 0 ->
  gamma_Z0 0 c 0 c f = Ok ((0, 2 * PI * f * c), (1, 0)).
Proof.
  intros Hc Hf. pose proof PI_RGT_0 as Hpi.
  assert (Hwf : 2 * PI * f < 0) by nra.
  assert (Hw : 2 * PI * f * c < 0) by nra.
  rewrite gamma_Z0_signed
    by (unfold line_Z, C0; intros E; inversion E; lra).
  rewrite lossless_product, lossless_quotient by lra.
  assert (Hflag : cmul_im_neg_zero (line_Z 0 c f) (line_Z 0 c f) = true).
  { unfold cmul_im_neg_zero, mul_neg_zero, line_Z. cbn [Re Im fst snd].
    rewrite is_zero_0, (is_neg_neg _ Hw).
    destruct (is_neg 0), (is_zero (2 * PI * f * c)); reflexivity. }
  rewrite Hflag, np_sqrt_neg_real by nra.
  rewrite np_sqrt_nonneg_real
    by (apply Rlt_le, Rdiv_lt_0_compat; assumption).
  replace (c / c) with 1 by (field; lra). rewrite sqrt_1.
  replace (- - (2 * PI * f * c * (2 * PI * f * c)))
    with ((- (2 * PI * f * c)) * (- (2 * PI * f * c))) by ring.
  rewrite sqrt_square by lra. rewrite Ropp_involutive. reflexivity.
Qed.

Lemma np_rdiv_finite (x y v : R) :
  finite (np_rdiv x y) = Some v -> y <> 0 /\ v = x / y.
Proof.
  unfold np_rdiv. destruct (Req_dec_T y 0) as [Hy | Hy].
  - destruct (Req_dec_T x 0); discriminate.
  - cbn. intros H; inversion H. auto.
Qed.

Lemma np_cdiv_finite (z w v : Cplx) :
  finite (np_cdiv z w) = Some v -> w <> C0 /\ v = (z / w)%C.
Proof.
  unfold np_cdiv. destruct (Ceq_dec w C0) as [Hw | Hw].
  - destruct (Ceq_dec z C0); discriminate.
  - cbn. intros H; inversion H. auto.
Qed.

(** What a returned result is made of. *)
Lemma single_stub_inv (R_ L G C f0 l : R) (ZL : Cplx) (prefer : string)
  (res : StubMatchResult) :
  single_stub_shunt R_ L G C f0 l ZL prefer = Ok res ->
  exists (gamma Z0 : Cplx) (d : R) (Yin : Cplx),
    gamma_Z0 0 L 0 C f0 = Ok (gamma, Z0) /\
    Im gamma <> 0 /\
    Z0 <> C0 /\
    snd (sweep Z0 ZL (C1 / Z0) (Im gamma)
               (linspace 0 (2 * PI / Im gamma / 2) 1000)) = Some (d, Yin) /\
    d_opt res = d /\
    l_stub res =
      (let B_needed := - Im (Yin - C1 / Z0)%C in
       let target :=
         if String.eqb prefer "short" then (RtoC (- B_needed) * Z0)%C
         else (RtoC B_needed * Z0)%C in
       let theta := arctan_recip target in
       let theta := if clt_lex theta C0 then (theta + RtoC PI)%C else theta in
       (theta / RtoC (Im gamma))%C).
Proof.
  intros H. unfold single_stub_shunt in H.
  destruct (gamma_Z0 0 L 0 C f0) as [[gamma Z0] | e] eqn:Hg;
    cbn [bind fst snd] in H; [ | discriminate].
  destruct (finite (np_rdiv (2 * PI) (Im gamma))) as [lam | ] eqn:Hlam;
    [ | discriminate].
  destruct (finite (np_cdiv C1 Z0)) as [y0 | ] eqn:Hy0; [ | discriminate].
  apply np_rdiv_finite in Hlam. destruct Hlam as [Hb ->].
  apply np_cdiv_finite in Hy0. destruct Hy0 as [HZ ->].
  destruct (snd (sweep Z0 ZL (C1 / Z0) (Im gamma)
                       (linspace 0 (2 * PI / Im gamma / 2) 1000)))
    as [[d Yin] | ] eqn:Hsw; [ | discriminate].
  rewrite !abcd_of_tline_ok in H by exact HZ. cbn [bind] in H.
  match type of H with
  | bind ?c _ = _ => destruct c as [v | e]; cbn [bind] in H
  end; [ | discriminate].
  inversion H; subst res; clear H. cbn [d_opt l_stub].
  exists gamma, Z0, d, Yin. repeat split; assumption || reflexivity.
Qed.

(** The solver returns as soon as the matching section has a wavelength
    and the sweep has recorded a sample. *)
Lemma single_stub_returns (R_ L G C f0 l : R) (ZL : Cplx) (prefer : string)
  (gamma Z0 : Cplx) :
  gamma_Z0 0 L 0 C f0 = Ok (gamma, Z0) ->
  Im gamma <> 0 ->
  Z0 <> C0 ->
  snd (sweep Z0 ZL (C1 / Z0) (Im gamma)
             (linspace 0 (2 * PI / Im gamma / 2) 1000)) <> None ->
  exists res : StubMatchResult,
    single_stub_shunt R_ L G C f0 l ZL prefer = Ok res.
Proof.
  intros Hg Hb HZ Hsw. unfold single_stub_shunt.
  rewrite Hg; cbn [bind fst snd].
  unfold np_rdiv. destruct (Req_dec_T (Im gamma) 0) as [E | _]; [contradiction | ].
  rewrite np_cdiv_fin by exact HZ. cbn [finite].
  destruct (snd (sweep Z0 ZL (C1 / Z0) (Im gamma)
                       (linspace 0 (2 * PI / Im gamma / 2) 1000)))
    as [[d Yin] | ]; [ | contradiction].
  rewrite !abcd_of_tline_ok by exact HZ. cbn [bind].
  match goal with
  | |- exists res, bind ?c _ = _ =>
      assert (Hv : exists v, c = Ok v)
  end.
  { match goal with
    | |- exists v, match ?y with _ => _ end = _ => destruct y as [Ys | | ]
    end; try (eexists; reflexivity).
    match goal with
    | |- exists v, bind (gamma_of_impedance ?z ?z0) _ = _ =>
        destruct (gamma_of_impedance_total z z0) as [g ->]
    end.
    cbn [bind]. apply vswr_from_gamma_total. }
  destruct Hv as [v ->]. cbn [bind]. eexists; reflexivity.
Qed.

(** At d = 0 the line is not there: the admittance seen is that of the
    load. *)
Lemma Yin_at_load (Z0 ZL : Cplx) (beta : R) :
  Z0 <> C0 -> ZL <> C0 -> Yin_at Z0 ZL beta 0 = Some (C1 / ZL)%C.
Proof.
  intros HZ HZL. unfold Yin_at. rewrite Rmult_0_r, tan_0.
  replace (Z0 * (ZL + Ci * Z0 * RtoC 0))%C with (ZL * Z0)%C
    by (destruct Z0, ZL; cplx_unfold; f_equal; ring).
  replace (Z0 + Ci * ZL * RtoC 0)%C with Z0
    by (destruct Z0, ZL; cplx_unfold; f_equal; ring).
  rewrite np_cdiv_fin, cmul_cdiv_cancel by exact HZ. cbn [finite].
  rewrite np_cdiv_fin by exact HZL. reflexivity.
Qed.

(** A load of 2 on a unit line: the solver returns for either stub
    preference. *)
Lemma unit_line_stub_returns (R_ G c f0 l : R) (prefer : string) :
  0 < c -> 0 < f0 ->
  exists res : StubMatchResult,
    single_stub_shunt R_ c G c f0 l (2, 0) prefer = Ok res.
Proof.
  intros Hc Hf. pose proof PI_RGT_0 as Hpi.
  assert (Hw : 0 < 2 * PI * f0 * c).
  { apply Rmult_lt_0_compat; [ | exact Hc].
    apply Rmult_lt_0_compat; lra. }
  assert (H1 : (1, 0) <> C0) by (apply pair_nonzero_l; lra).
  assert (H2 : (2, 0) <> C0) by (apply pair_nonzero_l; lra).
  apply (single_stub_returns _ _ _ _ _ _ _ _ _ _ (gamma_Z0_unit_line c f0 Hc Hf));
    cbn [Im snd]; [lra | exact H1 | ].
  apply (sweep_finds _ _ _ _ _ 0%nat 0 (/ 2)).
  - rewrite linspace_nth by lia. f_equal. simpl INR. ring.
  - unfold err_at. rewrite Yin_at_load by assumption.
    f_equal. cplx_unfold.
    replace ((1 * 2 + 0 * 0) / (2 * 2 + 0 * 0) - (1 * 1 + 0 * 0) / (1 * 1 + 0 * 0))
      with (- / 2) by field.
    rewrite Rabs_Ropp, Rabs_right; lra.
  - lra.
Qed.

(** The same load on the unit line at a negative frequency: the solver
    returns there too. *)
Lemma reversed_line_stub_returns (R_ G c f0 l : R) (prefer : string) :
  0 < c -> f0 < 0 ->
  exists res : StubMatchResult,
    single_stub_shunt R_ c G c f0 l (2, 0) prefer = Ok res.
Proof.
  intros Hc Hf. pose proof PI_RGT_0 as Hpi.
  assert (Hwf : 2 * PI * f0 < 0) by nra.
  assert (Hw : 2 * PI * f0 * c < 0) by nra.
  assert (H1 : (1, 0) <> C0) by (apply pair_nonzero_l; lra).
  assert (H2 : (2, 0) <> C0) by (apply pair_nonzero_l; lra).
  apply (single_stub_returns _ _ _ _ _ _ _ _ _ _
           (gamma_Z0_unit_line_reversed c f0 Hc Hf));
    cbn [Im snd]; [lra | exact H1 | ].
  apply (sweep_finds _ _ _ _ _ 0%nat 0 (/ 2)).
  - rewrite linspace_nth by lia. f_equal. simpl INR. ring.
  - unfold err_at. rewrite Yin_at_load by assumption.
    f_equal. cplx_unfold.
    replace ((1 * 2 + 0 * 0) / (2 * 2 + 0 * 0) - (1 * 1 + 0 * 0) / (1 * 1 + 0 * 0))
      with (- / 2) by field.
    rewrite Rabs_Ropp, Rabs_right; lra.
  - lra.
Qed.

(** C5.  Whenever [single_stub_shunt] returns, the tap position [d_opt] is
    one of the 1000 uniformly spaced sample points between 0 and lambda/2
    (lambda = 2 pi / beta of the lossless matching section), its error
    |Re(Yin(d)) - Re(1/Z0)| is minimal among the finite errors of the grid,
    and every earlier sample has a strictly larger error: the first
    sample wins on ties.  The grid runs from 0 to lambda/2 in the order the
    code visits it; for non-negative L, C and f0 that is the interval
    [0, lambda/2]. *)
Theorem tap_is_first_grid_minimum (R_ L G C f0 l : R) (ZL : Cplx)
  (prefer : string) (res : StubMatchResult) :
  single_stub_shunt R_ L G C f0 l ZL prefer = Ok res ->
  exists gamma Z0 : Cplx,
    gamma_Z0 0 L 0 C f0 = Ok (gamma, Z0) /\
    let beta := Im gamma in
    let lam := 2 * PI / beta in
    let err := err_at Z0 ZL (C1 / Z0) beta in
    exists (k : nat) (e : R),
      (k < 1000)%nat /\
      d_opt res = grid_point lam k /\
      Rmin 0 (lam / 2) <= d_opt res <= Rmax 0 (lam / 2) /\
      (0 <= L -> 0 <= C -> 0 <= f0 -> 0 <= d_opt res <= lam / 2) /\
      err (grid_point lam k) = Some e /\
      (forall (j : nat) (e' : R),
          (j < 1000)%nat -> err (grid_point lam j) = Some e' -> e <= e') /\
      (forall (j : nat) (e' : R),
          (j < k)%nat -> err (grid_point lam j) = Some e' -> e < e').
Proof.
  intros H.
  destruct (single_stub_inv _ _ _ _ _ _ _ _ _ H)
    as (gamma & Z0 & d & Yin & Hg & Hb & HZ & Hsw & Hd & _).
  exists gamma, Z0. split; [exact Hg | ]. cbv zeta.
  destruct (lossless_section _ _ _ _ _ Hg Hb) as [_ Hbpos].
  pose proof (sweep_inv_final Z0 ZL (C1 / Z0)%C (Im gamma)
                (linspace 0 (2 * PI / Im gamma / 2) 1000)) as Hinv.
  destruct (sweep Z0 ZL (C1 / Z0)%C (Im gamma)
                  (linspace 0 (2 * PI / Im gamma / 2) 1000)) as [m b].
  cbn [snd] in Hsw. subst b.
  destruct Hinv as (_ & Hall & HY & Hm & _ & k & Hk & Hfirst).
  cbn [fst snd] in *.
  apply d_sweep_nth_inv in Hk. destruct Hk as [Hk Hdk].
  exists k, m. rewrite Hd, <- Hdk.
  split; [exact Hk | ]. split; [reflexivity | ].
  assert (Hk0 : 0 <= INR k) by apply pos_INR.
  assert (Hk9 : INR k <= 999).
  { replace 999 with (INR 999) by (rewrite INR_IZR_INZ; reflexivity).
    apply le_INR. lia. }
  split.
  { rewrite Hdk. unfold grid_point, Rmin, Rmax.
    destruct (Rle_dec 0 (2 * PI / Im gamma / 2)); split; nra. }
  split.
  { intros HL HC Hf. specialize (Hbpos HL HC Hf).
    rewrite Hdk. unfold grid_point.
    pose proof PI_RGT_0 as Hpi.
    assert (Hlam : 0 < 2 * PI / Im gamma) by (apply Rdiv_lt_0_compat; lra).
    split; [nra | nra]. }
  split.
  { unfold err_at. rewrite HY, Hm. reflexivity. }
  split.
  - intros j e' Hj He'.
    apply (Hall j (grid_point (2 * PI / Im gamma) j) e');
      [apply d_sweep_nth, Hj | exact He'].
  - intros j e' Hj He'.
    apply (Hfirst j (grid_point (2 * PI / Im gamma) j) e');
      [exact Hj | apply d_sweep_nth; lia | exact He'].
Qed.

Lemma tap_is_first_grid_minimum_witness :
  exists res : StubMatchResult,
    single_stub_shunt 0 1 0 1 1 (1 / 10) (2, 0) "short" = Ok res /\
    exists gamma Z0 : Cplx,
      gamma_Z0 0 1 0 1 1 = Ok (gamma, Z0) /\
      let beta := Im gamma in
      let lam := 2 * PI / beta in
      let err := err_at Z0 (2, 0) (C1 / Z0) beta in
      exists (k : nat) (e : R),
        (k < 1000)%nat /\
        d_opt res = grid_point lam k /\
        Rmin 0 (lam / 2) <= d_opt res <= Rmax 0 (lam / 2) /\
        (0 <= 1 -> 0 <= 1 -> 0 <= 1 -> 0 <= d_opt res <= lam / 2) /\
        err (grid_point lam k) = Some e /\
        (forall (j : nat) (e' : R),
            (j < 1000)%nat -> err (grid_point lam j) = Some e' -> e <= e') /\
        (forall (j : nat) (e' : R),
            (j < k)%nat -> err (grid_point lam j) = Some e' -> e < e').
Proof.
  destruct (unit_line_stub_returns 0 0 1 1 (1 / 10) "short" Rlt_0_1 Rlt_0_1)
    as [res Hres].
  exists res. split; [exact Hres | ].
  exact (tap_is_first_grid_minimum 0 1 0 1 1 (1 / 10) (2, 0) "short" res Hres).
Defined.

(** *** The stub length *)

(** On a real target the solved angle is real, lies in (-pi/2, pi/2] and
    is not zero. *)
Lemma arctan_recip_real (t : R) :
  exists x : R,
    arctan_recip (t, 0) = (x, 0) /\ - (PI / 2) < x /\ x <= PI / 2 /\ x <> 0.
Proof.
  pose proof PI_RGT_0 as Hpi. unfold arctan_recip.
  destruct (Ceq_dec (t, 0) C0) as [E | E].
  - exists (PI / 2). split; [reflexivity | lra].
  - assert (Ht : t <> 0) by (intros ->; apply E; reflexivity).
    replace (C1 / (t, 0))%C with ((/ t, 0) : Cplx)
      by (cplx_unfold; f_equal; field; exact Ht).
    rewrite carctan_real. exists (atan (/ t)). split; [reflexivity | ].
    pose proof (atan_bound (/ t)).
    repeat split; try lra.
    intros E0. apply (Rinv_neq_0_compat t Ht).
    rewrite <- (tan_atan (/ t)), E0. apply tan_0.
Qed.

(** The stub length a returned result carries: a real angle in [0, pi),
    never zero, divided by the phase constant. *)
Lemma stub_length_form (R_ L G C f0 l : R) (ZL : Cplx) (prefer : string)
  (res : StubMatchResult) (gamma Z0 : Cplx) :
  single_stub_shunt R_ L G C f0 l ZL prefer = Ok res ->
  gamma_Z0 0 L 0 C f0 = Ok (gamma, Z0) ->
  Im gamma <> 0 /\
  exists x : R, 0 < x < PI /\ l_stub res = (x / Im gamma, 0).
Proof.
  intros H Hg0.
  destruct (single_stub_inv _ _ _ _ _ _ _ _ _ H)
    as (gamma' & Z0' & d & Yin & Hg & Hb & HZ & _ & _ & Hl).
  rewrite Hg0 in Hg. inversion Hg; subst gamma' Z0'. clear Hg.
  split; [exact Hb | ]. cbv zeta in *.
  destruct (lossless_section _ _ _ _ _ Hg0 Hb) as [(z0 & Hz0 & ->) _].
  set (beta := Im gamma) in *.
  set (B := - Im (Yin - C1 / (z0, 0))%C) in *.
  assert (Ht : exists t : R,
             (if (prefer =? "short")%string
              then (RtoC (- B) * (z0, 0))%C
              else (RtoC B * (z0, 0))%C) = (t, 0)).
  { destruct (prefer =? "short")%string; rewrite cmul_RtoC_real;
      eexists; reflexivity. }
  destruct Ht as [t Ht]. rewrite Ht in Hl.
  destruct (arctan_recip_real t) as (x & Hx & Hxlo & Hxhi & Hx0).
  rewrite Hx, clt_lex_real_0 in Hl.
  pose proof PI_RGT_0 as Hpi.
  destruct (Rlt_dec x 0) as [Hneg | Hpos].
  - exists (x + PI). split; [lra | ].
    rewrite Hl, cadd_real. apply cdiv_real, Hb.
  - exists x. split; [lra | ].
    rewrite Hl. apply cdiv_real, Hb.
Qed.

(** C6, as stated, fails at a negative frequency: on the unit line
    (L = C = 1) at f0 = -1 the lossless section has gamma = -2 pi j, so
    beta = -2 pi and lambda = -1; the solver returns, and the stub length
    theta / beta is negative. *)
Lemma stub_length_counterexample :
  ~ stub_length_claim 0 1 0 1 (-1) (1 / 10) (2, 0) "short".
Proof.
  pose proof PI_RGT_0 as Hpi.
  assert (Hf : -1 < 0) by lra.
  destruct (reversed_line_stub_returns 0 0 1 (-1) (1 / 10) "short" Rlt_0_1 Hf)
    as [res Hres].
  pose proof (gamma_Z0_unit_line_reversed 1 (-1) Rlt_0_1 Hf) as Hg.
  intros Hclaim.
  destruct (Hclaim res Hres) as (gamma & Z0 & Hg' & _ & Hlo & _).
  destruct (stub_length_form _ _ _ _ _ _ _ _ _ _ _ Hres Hg)
    as (_ & x & [Hx0 Hxpi] & Hl).
  rewrite Hl in Hlo. cbn [Re Im fst snd] in Hlo.
  assert (Hneg : x / (2 * PI * -1 * 1) < 0).
  { replace (x / (2 * PI * -1 * 1)) with (- (x / (2 * PI))) by (field; lra).
    assert (0 < x / (2 * PI)) by (apply Rdiv_lt_0_compat; lra). lra. }
  lra.
Qed.

(** C6, amended.  For non-negative L, C and f0, whenever
    [single_stub_shunt] returns, for either stub preference, the stub
    length is a real number with 0 <= l_stub < lambda/2, and the angle
    theta = beta * l_stub lies in [0, pi). *)
Theorem stub_length_in_range (R_ L G C f0 l : R) (ZL : Cplx)
  (prefer : string) (res : StubMatchResult) :
  0 <= L -> 0 <= C -> 0 <= f0 ->
  single_stub_shunt R_ L G C f0 l ZL prefer = Ok res ->
  exists gamma Z0 : Cplx,
    gamma_Z0 0 L 0 C f0 = Ok (gamma, Z0) /\
    let beta := Im gamma in
    let lam := 2 * PI / beta in
    Im (l_stub res) = 0 /\
    0 <= Re (l_stub res) < lam / 2 /\
    0 <= beta * Re (l_stub res) < PI.
Proof.
  intros HL HC Hf H.
  destruct (single_stub_inv _ _ _ _ _ _ _ _ _ H)
    as (gamma & Z0 & _ & _ & Hg & Hb & _).
  exists gamma, Z0. split; [exact Hg | ]. cbv zeta.
  destruct (lossless_section _ _ _ _ _ Hg Hb) as [_ Hbpos].
  specialize (Hbpos HL HC Hf).
  destruct (stub_length_form _ _ _ _ _ _ _ _ _ _ _ H Hg)
    as (_ & x' & [Hx0 Hxpi] & ->).
  set (beta := Im gamma) in *. cbn [Re Im fst snd].
  pose proof PI_RGT_0 as Hpi.
  assert (Hinv : 0 < / beta) by (apply Rinv_0_lt_compat; exact Hbpos).
  split; [reflexivity | ]. split.
  - unfold Rdiv. split.
    + apply Rmult_le_pos; lra.
    + replace (2 * PI * / beta * / 2) with (PI * / beta) by (field; lra).
      apply Rmult_lt_compat_r; assumption.
  - replace (beta * (x' / beta)) with x' by (field; lra). lra.
Qed.

Lemma stub_length_in_range_witness :
  0 <= 1 /\ 0 <= 1 /\ 0 <= 1 /\
  exists res : StubMatchResult,
    single_stub_shunt 0 1 0 1 1 (1 / 10) (2, 0) "open" = Ok res /\
    exists gamma Z0 : Cplx,
      gamma_Z0 0 1 0 1 1 = Ok (gamma, Z0) /\
      let beta := Im gamma in
      let lam := 2 * PI / beta in
      Im (l_stub res) = 0 /\
      0 <= Re (l_stub res) < lam / 2 /\
      0 <= beta * Re (l_stub res) < PI.
Proof.
  destruct (unit_line_stub_returns 0 0 1 1 (1 / 10) "open" Rlt_0_1 Rlt_0_1)
    as [res Hres].
  repeat (split; [exact Rle_0_1 | ]).
  exists res. split; [exact Hres | ].
  exact (stub_length_in_range 0 1 0 1 1 (1 / 10) (2, 0) "open" res
           Rle_0_1 Rle_0_1 Rle_0_1 Hres).
Defined.

(** C7.  The output of [single_stub_shunt] does not depend on the host
    line's loss parameters: two calls that agree on (L, C, f0, l, ZL,
    prefer) give the same outcome (the same result record, or the same
    exception) whatever R and G are, since the matching section is
    characterized with R = 0 and G = 0. *)
Theorem stub_ignores_line_losses (R1 G1 R2 G2 L C f0 l : R) (ZL : Cplx)
  (prefer : string) :
  single_stub_shunt R1 L G1 C f0 l ZL prefer
  = single_stub_shunt R2 L G2 C f0 l ZL prefer /\
  forall res1 res2 : StubMatchResult,
    single_stub_shunt R1 L G1 C f0 l ZL prefer = Ok res1 ->
    single_stub_shunt R2 L G2 C f0 l ZL prefer = Ok res2 ->
    VSWR_src res1 = VSWR_src res2 /\
    d_opt res1 = d_opt res2 /\
    l_stub res1 = l_stub res2 /\
    notes res1 = notes res2.
Proof.
  assert (Heq : single_stub_shunt R1 L G1 C f0 l ZL prefer
                = single_stub_shunt R2 L G2 C f0 l ZL prefer)
    by reflexivity.
  split; [exact Heq | ].
  intros res1 res2 H1 H2. rewrite Heq, H2 in H1.
  inversion H1; subst res2. repeat split.
Qed.

Lemma stub_ignores_line_losses_witness :
  exists res1 res2 : StubMatchResult,
    single_stub_shunt (1 / 20) 1 (1 / 100) 1 1 (1 / 10) (2, 0) "short"
    = Ok res1 /\
    single_stub_shunt 3 1 7 1 1 (1 / 10) (2, 0) "short" = Ok res2 /\
    VSWR_src res1 = VSWR_src res2 /\
    d_opt res1 = d_opt res2 /\
    l_stub res1 = l_stub res2 /\
    notes res1 = notes res2.
Proof.
  destruct (unit_line_stub_returns (1 / 20) (1 / 100) 1 1 (1 / 10) "short"
              Rlt_0_1 Rlt_0_1) as [res1 H1].
  destruct (unit_line_stub_returns 3 7 1 1 (1 / 10) "short"
              Rlt_0_1 Rlt_0_1) as [res2 H2].
  exists res1, res2. split; [exact H1 | ]. split; [exact H2 | ].
  exact (proj2 (stub_ignores_line_losses (1 / 20) (1 / 100) 3 7 1 1 1
                  (1 / 10) (2, 0) "short") res1 res2 H1 H2).
Defined.

(** C2 at a failing input.  On the line L = C = 1e-10, f0 = 1 the phase
    constant beta = 2 pi 1e-10 is numerically zero; the quarter-wave solver
    raises its ValueError there, the single-stub solver returns a result. *)
Theorem stub_solver_lacks_beta_guard :
  exists gamma Z0 : Cplx,
    gamma_Z0 0 1e-10 0 1e-10 1 = Ok (gamma, Z0) /\
    isclose (Im gamma) 0 = true /\
    quarter_wave_transform 0 1e-10 0 1e-10 1 (2, 0)
    = Raise (ValueError
               "Quarter-wave undefined: beta (imag part of gamma) is zero.") /\
    exists res : StubMatchResult,
      single_stub_shunt 0 1e-10 0 1e-10 1 (1 / 10) (2, 0) "short" = Ok res.
Proof.
  assert (Hc : 0 < 1e-10) by lra.
  pose proof (gamma_Z0_unit_line 1e-10 1 Hc Rlt_0_1) as Hg.
  assert (Hclose : isclose (Im (0, 2 * PI * 1 * 1e-10)) 0 = true).
  { apply isclose_0_true. cbn [Im snd].
    pose proof PI_RGT_0. pose proof PI_4.
    rewrite Rabs_right by lra. lra. }
  do 2 eexists. split; [exact Hg | ]. split; [exact Hclose | ]. split.
  - exact (quarter_wave_raises _ _ _ _ _ _ _ _ Hg Hclose).
  - exact (unit_line_stub_returns 0 0 1e-10 1 (1 / 10) "short" Hc Rlt_0_1).
Qed.

(* ===================================================================== *)
(** * Further properties of the code *)
(* ===================================================================== *)

(** ** tl_abcd.py: the two-port algebra *)

Lemma matmul_assoc (M N P : ABCD) :
  matmul M (matmul N P) = matmul (matmul M N) P.
Proof.
  destruct M as [a b c d], N as [a' b' c' d'], P as [a'' b'' c'' d''].
  unfold matmul; cbn [mA mB mC mD].
  f_equal; cplx_destruct; cplx_unfold; f_equal; ring.
Qed.

Lemma matmul_eye2_r (M : ABCD) : matmul M eye2 = M.
Proof.
  destruct M as [a b c d]. unfold matmul, eye2; simpl.
  rewrite !cmul_1_r, !cmul_0_r, !cadd_0_l, !cadd_0_r. reflexivity.
Qed.

Lemma fold_matmul_from (Ms : list ABCD) (M : ABCD) :
  fold_left (fun result abcd => matmul result abcd) Ms M
  = matmul M (cascade_abcd Ms).
Proof.
  unfold cascade_abcd. revert M.
  induction Ms as [ | N Ms IH]; intros M; cbn [fold_left].
  - symmetry. apply matmul_eye2_r.
  - rewrite IH, (IH (matmul eye2 N)), matmul_eye2_l, matmul_assoc.
    reflexivity.
Qed.

Lemma cascade_abcd_cons (M : ABCD) (Ms : list ABCD) :
  cascade_abcd (M :: Ms) = matmul M (cascade_abcd Ms).
Proof.
  unfold cascade_abcd at 1; cbn [fold_left].
  rewrite fold_matmul_from, matmul_eye2_l. reflexivity.
Qed.

(** Cascading a chain in two parts and multiplying the two results is
    cascading the whole chain. *)
Theorem cascade_abcd_app (Ms Ns : list ABCD) :
  cascade_abcd (Ms ++ Ns) = matmul (cascade_abcd Ms) (cascade_abcd Ns).
Proof.
  unfold cascade_abcd at 1. rewrite fold_left_app.
  apply fold_matmul_from.
Qed.

Lemma cosh2_minus_sinh2 (x : R) : cosh x * cosh x - sinh x * sinh x = 1.
Proof.
  unfold cosh, sinh.
  assert (H : exp x * exp (- x) = 1)
    by (rewrite <- exp_plus, Rplus_opp_r; apply exp_0).
  field_simplify. nra.
Qed.

Lemma cos2_plus_sin2 (y : R) : cos y * cos y + sin y * sin y = 1.
Proof. pose proof (sin2_cos2 y) as H. unfold Rsqr in H. lra. Qed.

Lemma ccosh2_minus_csinh2 (w : Cplx) :
  (ccosh w * ccosh w - csinh w * csinh w)%C = C1.
Proof.
  destruct w as [x y]. unfold ccosh, csinh; cplx_unfold.
  pose proof (cosh2_minus_sinh2 x) as Hh. pose proof (cos2_plus_sin2 y) as Ht.
  f_equal.
  - transitivity ((cosh x * cosh x - sinh x * sinh x)
                  * (cos y * cos y + sin y * sin y)); [ring | ].
    rewrite Hh, Ht. ring.
  - ring.
Qed.

Lemma det_matmul (M N : ABCD) : det (matmul M N) = (det M * det N)%C.
Proof.
  destruct M as [a b c d], N as [a' b' c' d'].
  unfold det, matmul; cbn [mA mB mC mD].
  cplx_destruct; cplx_unfold; f_equal; ring.
Qed.

Lemma det_eye2 : det eye2 = C1.
Proof. unfold det, eye2; cplx_unfold; f_equal; ring. Qed.

Lemma det_ladder_element (M : ABCD) : ladder_element M -> det M = C1.
Proof.
  intros [(gamma & Z0 & len & H) | (Y & ->)].
  - destruct (Ceq_dec Z0 C0) as [E | HZ].
    + unfold abcd_of_tline, py_cdiv in H.
      destruct (Ceq_dec Z0 C0); [discriminate | contradiction].
    + rewrite abcd_of_tline_ok in H by exact HZ. inversion H; subst M; clear H.
      unfold det; cbn [mA mB mC mD].
      set (c := ccosh (gamma * RtoC len)). set (s := csinh (gamma * RtoC len)).
      replace (c * c - Z0 * s * (C1 / Z0 * s))%C
        with (c * c - (Z0 * (C1 / Z0)) * (s * s))%C
        by (cplx_destruct; cplx_unfold; f_equal; ring).
      rewrite cmul_cinv_r, cmul_1_l by exact HZ.
      apply ccosh2_minus_csinh2.
  - unfold det, abcd_of_shunt_admittance; cbn [mA mB mC mD].
    destruct Y; cplx_unfold; f_equal; ring.
Qed.

(** Reciprocity: every cascade of line sections and shunt admittances has
    determinant A D - B C = 1. *)
Theorem cascade_reciprocal (Ms : list ABCD) :
  Forall ladder_element Ms -> det (cascade_abcd Ms) = C1.
Proof.
  induction 1 as [ | M Ms HM _ IH].
  - apply det_eye2.
  - rewrite cascade_abcd_cons, det_matmul, IH, (det_ladder_element M HM).
    apply cmul_1_l.
Qed.

Lemma cascade_reciprocal_witness :
  exists M1 M2 : ABCD,
    abcd_of_tline Ci (50, 0) (1 / 10) = Ok M1 /\
    abcd_of_tline Ci (50, 0) (1 / 4) = Ok M2 /\
    det (cascade_abcd [M1; abcd_of_shunt_admittance (0, 1 / 100); M2]) = C1.
Proof.
  assert (H : (50, 0) <> C0) by (apply pair_nonzero_l; lra).
  do 2 eexists.
  split; [apply abcd_of_tline_ok, H | ].
  split; [apply abcd_of_tline_ok, H | ].
  apply cascade_reciprocal.
  apply Forall_cons; [ | apply Forall_cons; [ | apply Forall_cons; [ | apply Forall_nil]]].
  - left. exists Ci, (50, 0), (1 / 10). apply abcd_of_tline_ok, H.
  - right. exists (0, 1 / 100). reflexivity.
  - left. exists Ci, (50, 0), (1 / 4). apply abcd_of_tline_ok, H.
Defined.

(** Shunt admittances in cascade add up: the chain of the shunt matrices
    of Y1, ..., Yn is the shunt matrix of Y1 + ... + Yn. *)
Theorem shunt_admittances_add (Ys : list Cplx) :
  cascade_abcd (map abcd_of_shunt_admittance Ys)
  = abcd_of_shunt_admittance (fold_right cadd C0 Ys).
Proof.
  induction Ys as [ | Y Ys IH].
  - reflexivity.
  - cbn [map fold_right]. rewrite cascade_abcd_cons, IH.
    unfold abcd_of_shunt_admittance, matmul; cbn [mA mB mC mD].
    f_equal; cplx_destruct; cplx_unfold; f_equal; ring.
Qed.

Lemma cdiv_mul_cancel (z w : Cplx) : w <> C0 -> (z / w * w = z)%C.
Proof.
  intros Hw. pose proof (cnorm2_pos w Hw) as Hn.
  destruct z as [a b], w as [c d]; cplx_unfold.
  f_equal; field; lra.
Qed.

Lemma cdiv_mul_l (u v w : Cplx) : v <> C0 -> (u * w / v = u / v * w)%C.
Proof.
  intros Hv. pose proof (cnorm2_pos v Hv) as Hn.
  destruct u as [a b], v as [c d], w as [e f]; cplx_unfold.
  f_equal; field; lra.
Qed.

(** Two quotients are equal when they cross-multiply. *)
Lemma cdiv_eq_cross (z w u v : Cplx) :
  w <> C0 -> v <> C0 -> (z * v = u * w)%C -> (z / w = u / v)%C.
Proof.
  intros Hw Hv H.
  assert (Hz : z = (u / v * w)%C).
  { rewrite <- cdiv_mul_l by exact Hv. rewrite <- H.
    symmetry. apply cmul_cdiv_cancel, Hv. }
  rewrite Hz. apply cmul_cdiv_cancel, Hw.
Qed.

Lemma cascade_abcd_pair (M N : ABCD) : cascade_abcd [M; N] = matmul M N.
Proof.
  unfold cascade_abcd; cbn [fold_left]. rewrite matmul_eye2_l. reflexivity.
Qed.

(** The input impedance of a chain is computed stage by stage: if the
    load-side network N turns ZL into Zmid and the source-side network M
    turns Zmid into Zin, and the overall denominator is not below the
    1e-12 guard, the cascade of M and N turns ZL into Zin. *)
Theorem z_in_of_cascade (M N : ABCD) (ZL Zmid Zin : Cplx) :
  z_in_from_abcd N ZL = Fin Zmid ->
  z_in_from_abcd M Zmid = Fin Zin ->
  ~ cabs (mC (cascade_abcd [M; N]) * ZL + mD (cascade_abcd [M; N])) < 1e-12 ->
  z_in_from_abcd (cascade_abcd [M; N]) ZL = Fin Zin.
Proof.
  intros HN HM Hbig. rewrite cascade_abcd_pair in *.
  unfold z_in_from_abcd in *.
  destruct (Rlt_dec (cabs (mC N * ZL + mD N)) 1e-12) as [ | HdN]; [discriminate | ].
  destruct (Rlt_dec (cabs (mC M * Zmid + mD M)) 1e-12) as [ | HdM]; [discriminate | ].
  destruct (Rlt_dec _ 1e-12) as [ | _]; [contradiction | ].
  apply cabs_not_small_nonzero in HdN, HdM, Hbig.
  rewrite np_cdiv_fin in HN, HM by assumption.
  rewrite np_cdiv_fin by assumption.
  inversion HN as [HN']; inversion HM as [HM']; clear HN HM.
  f_equal. apply cdiv_eq_cross; [exact Hbig | exact HdM | ].
  pose proof (cdiv_mul_cancel (mA N * ZL + mB N) _ HdN) as Hn.
  rewrite HN' in Hn.
  set (q := (mC N * ZL + mD N)%C) in *.
  set (n := (mA N * ZL + mB N)%C) in *.
  replace (mA (matmul M N) * ZL + mB (matmul M N))%C
    with (mA M * n + mB M * q)%C
    by (unfold n, q, matmul; cbn [mA mB mC mD];
        cplx_destruct; cplx_unfold; f_equal; ring).
  replace (mC (matmul M N) * ZL + mD (matmul M N))%C
    with (mC M * n + mD M * q)%C
    by (unfold n, q, matmul; cbn [mA mB mC mD];
        cplx_destruct; cplx_unfold; f_equal; ring).
  rewrite <- Hn. clearbody q. clear.
  destruct M as [a b c d]; cbn [mA mB mC mD].
  cplx_destruct; cplx_unfold; f_equal; ring.
Qed.

Lemma cabs_mul (z w : Cplx) : cabs (z * w) = cabs z * cabs w.
Proof.
  unfold cabs. rewrite <- sqrt_mult by apply cnorm2_nonneg.
  f_equal. destruct z, w; cplx_unfold; ring.
Qed.

Lemma cabs_Ci : cabs Ci = 1.
Proof.
  unfold cabs, cnorm2, Ci; simpl.
  replace (0 * 0 + 1 * 1) with 1 by ring. apply sqrt_1.
Qed.

Lemma cabs_real (x : R) : cabs (x, 0) = Rabs x.
Proof. apply (cabs_RtoC x). Qed.

Lemma z_in_shunt_real (y r : R) :
  0 <= y -> 0 < r ->
  z_in_from_abcd (abcd_of_shunt_admittance (y, 0)) (r, 0)
  = Fin (r / (y * r + 1), 0).
Proof.
  intros Hy Hr. unfold z_in_from_abcd, abcd_of_shunt_admittance;
    cbn [mA mB mC mD].
  replace ((y, 0) * (r, 0) + C1)%C with ((y * r + 1, 0) : Cplx)
    by (cplx_unfold; f_equal; ring).
  replace (C1 * (r, 0) + C0)%C with ((r, 0) : Cplx)
    by (cplx_unfold; f_equal; ring).
  assert (Hq : 1 <= y * r + 1) by nra.
  rewrite cabs_real, Rabs_right by lra.
  destruct (Rlt_dec (y * r + 1) 1e-12) as [Hs | _]; [lra | ].
  rewrite np_cdiv_fin by (apply pair_nonzero_l; lra).
  f_equal. cplx_unfold. f_equal; field; lra.
Qed.

Lemma z_in_of_cascade_witness :
  z_in_from_abcd (abcd_of_shunt_admittance (1, 0)) (1, 0) = Fin (1 / 2, 0) /\
  z_in_from_abcd (abcd_of_shunt_admittance (2, 0)) (1 / 2, 0) = Fin (1 / 4, 0) /\
  z_in_from_abcd
    (cascade_abcd [abcd_of_shunt_admittance (2, 0);
                   abcd_of_shunt_admittance (1, 0)]) (1, 0)
  = Fin (1 / 4, 0).
Proof.
  assert (H1 : z_in_from_abcd (abcd_of_shunt_admittance (1, 0)) (1, 0)
               = Fin (1 / 2, 0)).
  { rewrite z_in_shunt_real by lra. do 2 f_equal. field. }
  assert (H2 : z_in_from_abcd (abcd_of_shunt_admittance (2, 0)) (1 / 2, 0)
               = Fin (1 / 4, 0)).
  { rewrite z_in_shunt_real by lra. do 2 f_equal. field. }
  split; [exact H1 | ]. split; [exact H2 | ].
  apply (z_in_of_cascade _ _ _ _ _ H1 H2).
  rewrite cascade_abcd_pair.
  unfold matmul, abcd_of_shunt_admittance; cbn [mA mB mC mD].
  replace (((2, 0) * C1 + C1 * (1, 0)) * (1, 0) + ((2, 0) * C0 + C1 * C1))%C
    with ((4, 0) : Cplx) by (cplx_unfold; f_equal; ring).
  rewrite cabs_real, Rabs_right by lra. lra.
Defined.

Lemma csinh_plus_ccosh (w : Cplx) : (csinh w + ccosh w)%C = cexp w.
Proof.
  destruct w as [x y]. unfold csinh, ccosh, cexp; cplx_unfold.
  assert (H : sinh x + cosh x = exp x) by (unfold sinh, cosh; field).
  f_equal.
  - rewrite <- H. ring.
  - rewrite <- H. ring.
Qed.

Lemma cabs_cexp (w : Cplx) : cabs (cexp w) = exp (Re w).
Proof.
  destruct w as [x y]. unfold cabs, cnorm2, cexp; cbn [Re Im fst snd].
  pose proof (cos2_plus_sin2 y) as Ht.
  replace (exp x * cos y * (exp x * cos y) + exp x * sin y * (exp x * sin y))
    with (exp x * exp x * (cos y * cos y + sin y * sin y)) by ring.
  rewrite Ht, Rmult_1_r. apply sqrt_square. left; apply exp_pos.
Qed.

Lemma matched_line_zin (gamma Z0 : Cplx) (len : R) :
  Z0 <> C0 ->
  exists M : ABCD,
    abcd_of_tline gamma Z0 len = Ok M /\
    z_in_from_abcd M Z0 =
      if Rlt_dec (exp (Re gamma * len)) 1e-12 then Inf else Fin Z0.
Proof.
  intros HZ. rewrite abcd_of_tline_ok by exact HZ.
  eexists; split; [reflexivity | ].
  unfold z_in_from_abcd; cbn [mA mB mC mD].
  set (w := (gamma * RtoC len)%C).
  replace (C1 / Z0 * csinh w * Z0 + ccosh w)%C with (cexp w).
  2:{ rewrite <- csinh_plus_ccosh.
      replace (C1 / Z0 * csinh w * Z0)%C with (Z0 * (C1 / Z0) * csinh w)%C
        by (cplx_destruct; cplx_unfold; f_equal; ring).
      rewrite cmul_cinv_r, cmul_1_l by exact HZ. reflexivity. }
  replace (ccosh w * Z0 + Z0 * csinh w)%C with (Z0 * cexp w)%C
    by (rewrite <- csinh_plus_ccosh;
        cplx_destruct; cplx_unfold; f_equal; ring).
  rewrite cabs_cexp.
  replace (Re w) with (Re gamma * len)
    by (unfold w; destruct gamma; cplx_unfold; ring).
  destruct (Rlt_dec (exp (Re gamma * len)) 1e-12) as [Hs | Hs].
  - reflexivity.
  - rewrite np_cdiv_fin, cmul_cdiv_cancel; [reflexivity | | ].
    + intros E. apply Hs. rewrite <- (Rmult_1_l (exp _)).
      replace (Re gamma * len) with (Re w)
        by (unfold w; destruct gamma; cplx_unfold; ring).
      rewrite Rmult_1_l, <- cabs_cexp, E, cabs_C0. lra.
    + intros E. apply Hs.
      replace (Re gamma * len) with (Re w)
        by (unfold w; destruct gamma; cplx_unfold; ring).
      rewrite <- cabs_cexp, E, cabs_C0. lra.
Qed.

(** A passive line terminated in its own characteristic impedance shows
    that impedance at its input.  In exact arithmetic, for a total
    attenuation Re(gamma) * length between 0 and 100 nepers: the
    denominator exp(gamma * length) then has modulus at least 1, the
    1e-12 guard stays silent, and the hyperbolic functions are far from
    the float range. *)
Theorem matched_line_input (gamma Z0 : Cplx) (len : R) :
  Z0 <> C0 ->
  0 <= Re gamma * len <= 100 ->
  exists M : ABCD,
    abcd_of_tline gamma Z0 len = Ok M /\
    z_in_from_abcd M Z0 = Fin Z0.
Proof.
  intros HZ [Hlo _].
  destruct (matched_line_zin gamma Z0 len HZ) as (M & HM & Hin).
  exists M. split; [exact HM | ]. rewrite Hin.
  destruct (Rlt_dec (exp (Re gamma * len)) 1e-12) as [Hs | _]; [ | reflexivity].
  exfalso. pose proof (exp_ineq1_le (Re gamma * len)) as He. lra.
Qed.

Lemma matched_line_input_witness :
  (50, 0) <> C0 /\
  0 <= Re (1 / 100, 20) * (1 / 10) <= 100 /\
  exists M : ABCD,
    abcd_of_tline (1 / 100, 20) (50, 0) (1 / 10) = Ok M /\
    z_in_from_abcd M (50, 0) = Fin (50, 0).
Proof.
  assert (H : (50, 0) <> C0) by (apply pair_nonzero_l; lra).
  assert (Hr : 0 <= Re (1 / 100, 20) * (1 / 10) <= 100)
    by (cbn [Re fst]; lra).
  split; [exact H | ]. split; [exact Hr | ].
  exact (matched_line_input (1 / 100, 20) (50, 0) (1 / 10) H Hr).
Defined.

Lemma quarter_wave_section_zin (beta : R) (Z0 ZL : Cplx) :
  beta <> 0 ->
  Z0 <> C0 ->
  ~ cabs (ZL / Z0) < 1e-12 ->
  exists M : ABCD,
    abcd_of_tline (0, beta) Z0 (PI / (2 * beta)) = Ok M /\
    z_in_from_abcd M ZL = Fin (Z0 * Z0 / ZL)%C.
Proof.
  intros Hb HZ Hbig. rewrite abcd_of_tline_ok by exact HZ.
  eexists; split; [reflexivity | ].
  replace ((0, beta) * RtoC (PI / (2 * beta)))%C with ((0, PI / 2) : Cplx)
    by (cplx_unfold; f_equal; field; exact Hb).
  assert (Hc : ccosh (0, PI / 2) = C0).
  { unfold ccosh, C0; cbn [Re Im fst snd].
    rewrite cos_PI2, sinh_0. f_equal; ring. }
  assert (Hs : csinh (0, PI / 2) = Ci).
  { unfold csinh, Ci; cbn [Re Im fst snd].
    rewrite cos_PI2, sin_PI2, sinh_0, cosh_0. f_equal; ring. }
  rewrite Hc, Hs. unfold z_in_from_abcd; cbn [mA mB mC mD].
  assert (Hq : (ZL / Z0)%C <> C0) by (apply cabs_not_small_nonzero, Hbig).
  assert (HZL : ZL <> C0).
  { intros ->. apply Hq, cdiv_0_l. }
  assert (Hden : (C1 / Z0 * Ci * ZL + C0)%C = (Ci * (ZL / Z0))%C).
  { pose proof (cnorm2_pos Z0 HZ) as Hn.
    destruct Z0 as [a b], ZL as [c d]; cplx_unfold. f_equal; field; lra. }
  rewrite Hden, cabs_mul, cabs_Ci, Rmult_1_l.
  destruct (Rlt_dec (cabs (ZL / Z0)) 1e-12) as [ | _]; [contradiction | ].
  assert (Hd : (Ci * (ZL / Z0))%C <> C0).
  { apply cmul_nonzero; [ | exact Hq].
    unfold Ci, C0. intros E; inversion E; lra. }
  rewrite np_cdiv_fin by exact Hd. f_equal.
  apply cdiv_eq_cross; [exact Hd | exact HZL | ].
  rewrite cmul_0_l, cadd_0_l.
  transitivity (Z0 * Ci * (ZL / Z0 * Z0))%C.
  - rewrite cdiv_mul_cancel by exact HZ. reflexivity.
  - generalize (ZL / Z0)%C. intros q. clear.
    cplx_destruct; cplx_unfold; f_equal; ring.
Qed.

(** A lossless quarter-wave section inverts the load: with gamma = j beta
    and length pi/(2 beta), the input impedance is Z0^2 / ZL, provided
    |ZL / Z0| is not below the 1e-12 guard. *)
Theorem quarter_wave_section_inverts (beta : R) (Z0 ZL : Cplx) :
  beta <> 0 ->
  Z0 <> C0 ->
  ~ cabs (ZL / Z0) < 1e-12 ->
  exists M : ABCD,
    abcd_of_tline (0, beta) Z0 (PI / (2 * beta)) = Ok M /\
    z_in_from_abcd M ZL = Fin (Z0 * Z0 / ZL)%C.
Proof.
  intros Hb HZ Hbig. exact (quarter_wave_section_zin beta Z0 ZL Hb HZ Hbig).
Qed.

Lemma cdiv_real_real (x y : R) : y <> 0 -> ((x, 0) / (y, 0))%C = (x / y, 0).
Proof. intros Hy. cplx_unfold; f_equal; field; exact Hy. Qed.

Lemma quarter_wave_section_inverts_witness :
  2 <> 0 /\ (50, 0) <> C0 /\ ~ cabs ((100, 0) / (50, 0)) < 1e-12 /\
  exists M : ABCD,
    abcd_of_tline (0, 2) (50, 0) (PI / (2 * 2)) = Ok M /\
    z_in_from_abcd M (100, 0) = Fin ((50, 0) * (50, 0) / (100, 0))%C.
Proof.
  assert (Hb : 2 <> 0) by lra.
  assert (HZ : (50, 0) <> C0) by (apply pair_nonzero_l; lra).
  assert (Hbig : ~ cabs ((100, 0) / (50, 0)) < 1e-12).
  { rewrite cdiv_real_real by lra. rewrite cabs_real, Rabs_right by lra. lra. }
  repeat (split; [assumption | ]).
  exact (quarter_wave_section_inverts 2 (50, 0) (100, 0) Hb HZ Hbig).
Defined.

(** A lossless half-wave section repeats the load: with gamma = j beta and
    length pi/beta the input impedance is ZL, for every load. *)
Theorem half_wave_section_repeats (beta : R) (Z0 ZL : Cplx) :
  beta <> 0 ->
  Z0 <> C0 ->
  exists M : ABCD,
    abcd_of_tline (0, beta) Z0 (PI / beta) = Ok M /\
    z_in_from_abcd M ZL = Fin ZL.
Proof.
  intros Hb HZ. rewrite abcd_of_tline_ok by exact HZ.
  eexists; split; [reflexivity | ].
  replace ((0, beta) * RtoC (PI / beta))%C with ((0, PI) : Cplx)
    by (cplx_unfold; f_equal; field; exact Hb).
  assert (Hc : ccosh (0, PI) = (-1, 0)).
  { unfold ccosh; cbn [Re Im fst snd].
    rewrite cos_PI, sin_PI, sinh_0, cosh_0. f_equal; ring. }
  assert (Hs : csinh (0, PI) = C0).
  { unfold csinh, C0; cbn [Re Im fst snd].
    rewrite cos_PI, sin_PI, sinh_0, cosh_0. f_equal; ring. }
  rewrite Hc, Hs. unfold z_in_from_abcd; cbn [mA mB mC mD].
  rewrite !cmul_0_r, cmul_0_l, cadd_0_l, cadd_0_r.
  rewrite cabs_real, Rabs_left by lra.
  destruct (Rlt_dec (- -1) 1e-12) as [Hn | _]; [lra | ].
  rewrite np_cdiv_fin by (apply pair_nonzero_l; lra).
  f_equal. destruct ZL; cplx_unfold; f_equal; field.
Qed.

Lemma half_wave_section_repeats_witness :
  2 <> 0 /\ (50, 0) <> C0 /\
  exists M : ABCD,
    abcd_of_tline (0, 2) (50, 0) (PI / 2) = Ok M /\
    z_in_from_abcd M (100, 50) = Fin (100, 50).
Proof.
  assert (Hb : 2 <> 0) by lra.
  assert (HZ : (50, 0) <> C0) by (apply pair_nonzero_l; lra).
  repeat (split; [assumption | ]).
  exact (half_wave_section_repeats 2 (50, 0) (100, 50) Hb HZ).
Defined.

Lemma cdiv_nonzero (z w : Cplx) : z <> C0 -> w <> C0 -> (z / w)%C <> C0.
Proof.
  intros Hz Hw E. apply Hz.
  rewrite <- (cdiv_mul_cancel z w Hw), E. apply cmul_0_l.
Qed.

(** A shunt admittance in front of a load adds to the load admittance:
    1/Zin = Y + 1/ZL, for a non-zero load and a denominator Y ZL + 1 not
    below the 1e-12 guard. *)
Theorem shunt_adds_admittance (Y ZL : Cplx) :
  ZL <> C0 ->
  ~ cabs (Y * ZL + C1) < 1e-12 ->
  exists Zin : Cplx,
    z_in_from_abcd (abcd_of_shunt_admittance Y) ZL = Fin Zin /\
    Zin <> C0 /\
    (C1 / Zin = Y + C1 / ZL)%C.
Proof.
  intros HZL Hbig. unfold z_in_from_abcd, abcd_of_shunt_admittance;
    cbn [mA mB mC mD].
  destruct (Rlt_dec (cabs (Y * ZL + C1)) 1e-12) as [ | _]; [contradiction | ].
  apply cabs_not_small_nonzero in Hbig.
  rewrite np_cdiv_fin by exact Hbig.
  rewrite cmul_1_l, cadd_0_r.
  eexists; split; [reflexivity | ].
  assert (Hq : (ZL / (Y * ZL + C1))%C <> C0) by (apply cdiv_nonzero; assumption).
  split; [exact Hq | ].
  transitivity ((Y * ZL + C1) / ZL)%C.
  - apply cdiv_eq_cross; [exact Hq | exact HZL | ].
    rewrite cmul_1_l, cmul_comm. symmetry. apply cdiv_mul_cancel, Hbig.
  - pose proof (cnorm2_pos ZL HZL) as Hn.
    destruct Y as [a b], ZL as [c d]; cplx_unfold. f_equal; field; lra.
Qed.

Lemma shunt_adds_admittance_witness :
  (2, 0) <> C0 /\
  ~ cabs ((3, 0) * (2, 0) + C1) < 1e-12 /\
  exists Zin : Cplx,
    z_in_from_abcd (abcd_of_shunt_admittance (3, 0)) (2, 0) = Fin Zin /\
    Zin <> C0 /\
    (C1 / Zin = (3, 0) + C1 / (2, 0))%C.
Proof.
  assert (HZL : (2, 0) <> C0) by (apply pair_nonzero_l; lra).
  assert (Hbig : ~ cabs ((3, 0) * (2, 0) + C1) < 1e-12).
  { replace ((3, 0) * (2, 0) + C1)%C with ((7, 0) : Cplx)
      by (cplx_unfold; f_equal; ring).
    rewrite cabs_real, Rabs_right by lra. lra. }
  repeat (split; [assumption | ]).
  exact (shunt_adds_admittance (3, 0) (2, 0) HZL Hbig).
Defined.

(** ** tl_metrics.py: reflection, VSWR and the loss figures *)

Lemma ln_10_pos : 0 < ln 10.
Proof. rewrite <- ln_1. apply ln_increasing; lra. Qed.

Lemma ln_1e12 : ln 1e-12 = -12 * ln 10.
Proof.
  replace 1e-12 with (/ 10 ^ 12) by (simpl; lra).
  rewrite ln_Rinv by (apply pow_lt; lra).
  rewrite ln_pow by lra. simpl INR. ring.
Qed.

Lemma ln_1e5 : ln 1e-5 = -5 * ln 10.
Proof.
  replace 1e-5 with (/ 10 ^ 5) by (simpl; lra).
  rewrite ln_Rinv by (apply pow_lt; lra).
  rewrite ln_pow by lra. simpl INR. ring.
Qed.

Lemma ln_le (x y : R) : 0 < x -> x <= y -> ln x <= ln y.
Proof.
  intros Hx [Hlt | ->]; [left; apply ln_increasing; assumption | right; reflexivity].
Qed.

Lemma np_log10_scale (x : R) : np_log10 x * ln 10 = ln x.
Proof. unfold np_log10. pose proof ln_10_pos. field. lra. Qed.

(** For a passive reflection coefficient, |Gamma| <= 1, the return loss is
    never negative and never above 240 dB, the value reached at
    |Gamma| = 1e-12. *)
Theorem return_loss_range (g : Cplx) :
  cabs g <= 1 -> 0 <= return_loss g <= 240.
Proof.
  intros Hle. unfold return_loss.
  destruct (Rlt_dec (cabs g) 1e-12) as [Hs | Hs]; [lra | ].
  assert (Hm : 1e-12 <= cabs g) by lra.
  pose proof ln_10_pos as H10. pose proof (np_log10_scale (cabs g)) as Hsc.
  assert (Hlo : -12 * ln 10 <= ln (cabs g))
    by (rewrite <- ln_1e12; apply ln_le; lra).
  assert (Hhi : ln (cabs g) <= 0)
    by (rewrite <- ln_1; apply ln_le; lra).
  split; nra.
Qed.

Lemma return_loss_range_witness :
  cabs (1 / 2, 0) <= 1 /\ 0 <= return_loss (1 / 2, 0) <= 240.
Proof.
  assert (H : cabs (1 / 2, 0) <= 1)
    by (rewrite cabs_real, Rabs_right; lra).
  split; [exact H | exact (return_loss_range (1 / 2, 0) H)].
Defined.

(** The 100 dB returned for |Gamma| < 1e-12 is not a ceiling: a
    reflection with 1e-12 <= |Gamma| < 1e-5 reports more than 100 dB,
    although it is larger than one that reports exactly 100 dB. *)
Theorem return_loss_not_monotone (g1 g2 : Cplx) :
  cabs g1 < 1e-12 ->
  1e-12 <= cabs g2 -> cabs g2 < 1e-5 ->
  return_loss g1 = 100 /\ 100 < return_loss g2.
Proof.
  intros H1 Hlo Hhi. split.
  - unfold return_loss.
    destruct (Rlt_dec (cabs g1) 1e-12) as [_ | Hn]; [reflexivity | contradiction].
  - unfold return_loss.
    destruct (Rlt_dec (cabs g2) 1e-12) as [Hs | _]; [lra | ].
    pose proof ln_10_pos as H10. pose proof (np_log10_scale (cabs g2)) as Hsc.
    assert (Hln : ln (cabs g2) < -5 * ln 10)
      by (rewrite <- ln_1e5; apply ln_increasing; lra).
    nra.
Qed.

Lemma return_loss_not_monotone_witness :
  cabs C0 < 1e-12 /\ 1e-12 <= cabs (1e-6, 0) /\ cabs (1e-6, 0) < 1e-5 /\
  return_loss C0 = 100 /\ 100 < return_loss (1e-6, 0).
Proof.
  assert (H1 : cabs C0 < 1e-12) by (rewrite cabs_C0; lra).
  assert (Hc : cabs (1e-6, 0) = 1e-6) by (rewrite cabs_real, Rabs_right; lra).
  assert (H2 : 1e-12 <= cabs (1e-6, 0)) by (rewrite Hc; lra).
  assert (H3 : cabs (1e-6, 0) < 1e-5) by (rewrite Hc; lra).
  repeat (split; [assumption | ]).
  exact (return_loss_not_monotone C0 (1e-6, 0) H1 H2 H3).
Defined.

Lemma cabs_pow2_ge_1 (g : Cplx) : cabs g ^ 2 >= 1 <-> 1 <= cabs g.
Proof.
  pose proof (cabs_nonneg g). simpl. split; intros; nra.
Qed.

(** The mismatch loss is infinite exactly when |Gamma| >= 1; below that
    it is a finite, non-negative number, and it is zero at Gamma = 0. *)
Theorem mismatch_loss_cases (g : Cplx) :
  (1 <= cabs g /\ mismatch_loss g = Inf) \/
  (cabs g < 1 /\
   exists x : R, mismatch_loss g = Fin x /\ 0 <= x /\ (g = C0 -> x = 0)).
Proof.
  pose proof (cabs_nonneg g) as H0. pose proof ln_10_pos as H10.
  unfold mismatch_loss.
  destruct (Rge_dec (cabs g ^ 2) 1) as [Hge | Hlt].
  - left. split; [apply cabs_pow2_ge_1, Hge | reflexivity].
  - right.
    assert (Hm : cabs g < 1).
    { destruct (Rlt_dec (cabs g) 1) as [H | H]; [exact H | ].
      exfalso. apply Hlt, cabs_pow2_ge_1. lra. }
    split; [exact Hm | ].
    eexists; split; [reflexivity | ].
    set (u := 1 - cabs g ^ 2).
    assert (Hu : 0 < u <= 1) by (unfold u; simpl; nra).
    pose proof (np_log10_scale u) as Hsc.
    assert (Hln : ln u <= 0) by (rewrite <- ln_1; apply ln_le; lra).
    split; [nra | ].
    intros ->. unfold u. rewrite cabs_C0.
    replace (1 - 0 ^ 2) with 1 by (simpl; ring).
    unfold np_log10. rewrite ln_1. field. lra.
Qed.

(** The VSWR determines the magnitude of the reflection coefficient:
    whenever [vswr_from_gamma] returns a finite s, |Gamma| = (s-1)/(s+1). *)
Theorem vswr_round_trip (g : Cplx) (s : R) :
  vswr_from_gamma (Fin g) = Ok (Fin s) ->
  cabs g = (s - 1) / (s + 1).
Proof.
  unfold vswr_from_gamma.
  destruct (Rge_dec (cabs g) 1) as [Hge | Hlt]; [discriminate | ].
  pose proof (cabs_nonneg g) as H0.
  rewrite py_rdiv_ok by lra. cbn [bind].
  intros H; inversion H; subst s; clear H.
  field. split; lra.
Qed.

Lemma vswr_of_half : vswr_from_gamma (Fin (1 / 2, 0)) = Ok (Fin 3).
Proof.
  unfold vswr_from_gamma. rewrite cabs_real, Rabs_right by lra.
  destruct (Rge_dec (1 / 2) 1) as [Hn | _]; [lra | ].
  rewrite py_rdiv_ok by lra. cbn [bind]. do 2 f_equal. field.
Qed.

Lemma vswr_round_trip_witness :
  vswr_from_gamma (Fin (1 / 2, 0)) = Ok (Fin 3) /\
  cabs (1 / 2, 0) = (3 - 1) / (3 + 1).
Proof.
  split; [exact vswr_of_half | exact (vswr_round_trip (1 / 2, 0) 3 vswr_of_half)].
Defined.

(** The VSWR grows with the magnitude of the reflection coefficient. *)
Theorem vswr_monotone (g1 g2 : Cplx) :
  cabs g1 <= cabs g2 ->
  exists v1 v2 : ext R,
    vswr_from_gamma (Fin g1) = Ok v1 /\
    vswr_from_gamma (Fin g2) = Ok v2 /\
    ext_le v1 v2.
Proof.
  intros Hle. unfold vswr_from_gamma.
  pose proof (cabs_nonneg g1) as H1. pose proof (cabs_nonneg g2) as H2.
  destruct (Rge_dec (cabs g2) 1) as [Hge2 | Hlt2].
  - destruct (Rge_dec (cabs g1) 1) as [Hge1 | Hlt1].
    + do 2 eexists; repeat split.
    + rewrite py_rdiv_ok by lra. do 2 eexists; repeat split.
  - destruct (Rge_dec (cabs g1) 1) as [Hge1 | Hlt1]; [lra | ].
    rewrite !py_rdiv_ok by lra. cbn [bind].
    do 2 eexists; split; [reflexivity | split; [reflexivity | ]].
    cbn [ext_le].
    set (a := cabs g1) in *. set (b := cabs g2) in *.
    assert (Ha : 0 < / (1 - a)) by (apply Rinv_0_lt_compat; lra).
    assert (Hb : 0 < / (1 - b)) by (apply Rinv_0_lt_compat; lra).
    assert (E : (1 + b) / (1 - b) - (1 + a) / (1 - a)
                = 2 * (b - a) * (/ (1 - a) * / (1 - b)))
      by (field; split; lra).
    assert (0 <= 2 * (b - a) * (/ (1 - a) * / (1 - b))).
    { apply Rmult_le_pos; [lra | ]. apply Rmult_le_pos; lra. }
    lra.
Qed.

Lemma vswr_monotone_witness :
  cabs (1 / 4, 0) <= cabs (1 / 2, 0) /\
  exists v1 v2 : ext R,
    vswr_from_gamma (Fin (1 / 4, 0)) = Ok v1 /\
    vswr_from_gamma (Fin (1 / 2, 0)) = Ok v2 /\
    ext_le v1 v2.
Proof.
  assert (H : cabs (1 / 4, 0) <= cabs (1 / 2, 0))
    by (rewrite !cabs_real, !Rabs_right; lra).
  split; [exact H | exact (vswr_monotone (1 / 4, 0) (1 / 2, 0) H)].
Defined.

Lemma cabs_lt_iff (z w : Cplx) : cabs z < cabs w <-> cnorm2 z < cnorm2 w.
Proof.
  unfold cabs. pose proof (cnorm2_nonneg z). pose proof (cnorm2_nonneg w).
  split; intros Hlt.
  - apply sqrt_lt_0_alt, Hlt.
  - apply sqrt_lt_1_alt. lra.
Qed.

Lemma cabs_pos (z : Cplx) : z <> C0 -> 0 < cabs z.
Proof.
  intros Hz. destruct (cabs_nonneg z) as [H | H]; [exact H | ].
  exfalso. apply Hz, cabs_zero. symmetry; exact H.
Qed.

(** The modulus of the reflection coefficient against 1. *)
Lemma reflection_modulus (ZL Z0 : Cplx) :
  (ZL + Z0)%C <> C0 ->
  (cabs ((ZL - Z0) / (ZL + Z0)) < 1
   <-> 0 < Re ZL * Re Z0 + Im ZL * Im Z0).
Proof.
  intros Hd. pose proof (cabs_pos _ Hd) as Hp.
  assert (Hm : cabs ((ZL - Z0) / (ZL + Z0)) * cabs (ZL + Z0) = cabs (ZL - Z0))
    by (rewrite <- cabs_mul, cdiv_mul_cancel by exact Hd; reflexivity).
  assert (Hn : cnorm2 (ZL + Z0) - cnorm2 (ZL - Z0)
               = 4 * (Re ZL * Re Z0 + Im ZL * Im Z0))
    by (destruct ZL, Z0; cplx_unfold; ring).
  pose proof (cabs_lt_iff (ZL - Z0) (ZL + Z0)) as Hiff.
  pose proof (cabs_nonneg ((ZL - Z0) / (ZL + Z0))) as Hg.
  split.
  - intros Hlt. assert (cabs (ZL - Z0) < cabs (ZL + Z0)) by nra.
    apply Hiff in H. lra.
  - intros Hpos. assert (Hc : cabs (ZL - Z0) < cabs (ZL + Z0)) by (apply Hiff; lra).
    destruct (Rlt_dec (cabs ((ZL - Z0) / (ZL + Z0))) 1) as [ | Hge]; [assumption | ].
    exfalso. nra.
Qed.

(** A passive load never reflects more than arrives: when
    Re(ZL conj(Z0)) >= 0, [gamma_of_impedance] returns a reflection
    coefficient of modulus at most 1, on either side of its guard. *)
Theorem passive_load_reflection_bounded (ZL Z0 : Cplx) :
  0 <= Re ZL * Re Z0 + Im ZL * Im Z0 ->
  exists g : Cplx,
    gamma_of_impedance (Fin ZL) Z0 = Ok (Fin g) /\ cabs g <= 1.
Proof.
  intros Hpos. unfold gamma_of_impedance.
  destruct (Rlt_dec (cabs (ZL + Z0)) 1e-12) as [ | Hbig].
  - exists C1. split; [reflexivity | ]. rewrite cabs_C1. lra.
  - apply cabs_not_small_nonzero in Hbig.
    rewrite py_cdiv_ok by exact Hbig. cbn [bind].
    eexists. split; [reflexivity | ].
    set (g := ((ZL - Z0) / (ZL + Z0))%C).
    destruct (Rle_dec (cabs g) 1) as [Hle | Hgt]; [exact Hle | ].
    exfalso.
    pose proof (cabs_pos _ Hbig) as Hp.
    assert (Hm : cabs g * cabs (ZL + Z0) = cabs (ZL - Z0))
      by (unfold g; rewrite <- cabs_mul, cdiv_mul_cancel by exact Hbig;
          reflexivity).
    assert (Hn : cnorm2 (ZL + Z0) - cnorm2 (ZL - Z0)
                 = 4 * (Re ZL * Re Z0 + Im ZL * Im Z0))
      by (destruct ZL, Z0; cplx_unfold; ring).
    assert (Hc : cabs (ZL + Z0) < cabs (ZL - Z0)) by nra.
    apply cabs_lt_iff in Hc. lra.
Qed.

Lemma passive_load_reflection_bounded_witness :
  0 <= Re (100, 50) * Re (50, 0) + Im (100, 50) * Im (50, 0) /\
  exists g : Cplx,
    gamma_of_impedance (Fin (100, 50)) (50, 0) = Ok (Fin g) /\ cabs g <= 1.
Proof.
  assert (H : 0 <= Re (100, 50) * Re (50, 0) + Im (100, 50) * Im (50, 0))
    by (cbn [Re Im fst snd]; lra).
  split; [exact H | exact (passive_load_reflection_bounded (100, 50) (50, 0) H)].
Defined.

(** Power balance of the two loss figures: for 1e-12 <= |Gamma| < 1 the
    reflected fraction 10^(-RL/10) and the delivered fraction 10^(-ML/10)
    add up to 1. *)
Theorem loss_figures_power_balance (g : Cplx) :
  1e-12 <= cabs g -> cabs g < 1 ->
  exists ml : R,
    mismatch_loss g = Fin ml /\
    Rpower 10 (- return_loss g / 10) + Rpower 10 (- ml / 10) = 1.
Proof.
  intros Hlo Hhi. pose proof ln_10_pos as H10.
  unfold mismatch_loss, return_loss.
  destruct (Rge_dec (cabs g ^ 2) 1) as [Hge | _].
  { apply cabs_pow2_ge_1 in Hge. lra. }
  destruct (Rlt_dec (cabs g) 1e-12) as [Hs | _]; [lra | ].
  eexists; split; [reflexivity | ].
  set (m := cabs g) in *.
  assert (Hu : 0 < 1 - m ^ 2) by (simpl; nra).
  unfold Rpower.
  replace (- (-20 * np_log10 m) / 10 * ln 10) with (ln m + ln m)
    by (unfold np_log10; field; lra).
  replace (- (-10 * np_log10 (1 - m ^ 2)) / 10 * ln 10) with (ln (1 - m ^ 2))
    by (unfold np_log10; field; lra).
  rewrite exp_plus, !exp_ln by lra. simpl. ring.
Qed.

Lemma loss_figures_power_balance_witness :
  1e-12 <= cabs (1 / 2, 0) /\ cabs (1 / 2, 0) < 1 /\
  exists ml : R,
    mismatch_loss (1 / 2, 0) = Fin ml /\
    Rpower 10 (- return_loss (1 / 2, 0) / 10) + Rpower 10 (- ml / 10) = 1.
Proof.
  assert (Hc : cabs (1 / 2, 0) = 1 / 2) by (rewrite cabs_real, Rabs_right; lra).
  assert (H1 : 1e-12 <= cabs (1 / 2, 0)) by (rewrite Hc; lra).
  assert (H2 : cabs (1 / 2, 0) < 1) by (rewrite Hc; lra).
  repeat (split; [assumption | ]).
  exact (loss_figures_power_balance (1 / 2, 0) H1 H2).
Defined.

(** ** The field of complex numbers *)

Lemma Cplx_ring_theory : ring_theory C0 C1 cadd cmul csub cneg eq.
Proof.
  constructor; intros; cplx_destruct; cplx_unfold; f_equal; ring.
Qed.

Lemma Cplx_field_theory :
  field_theory C0 C1 cadd cmul csub cneg cdiv cinv eq.
Proof.
  constructor.
  - exact Cplx_ring_theory.
  - unfold C1, C0. intros E; inversion E; lra.
  - intros p q. unfold cinv. destruct p, q; cplx_unfold.
    unfold Rdiv. f_equal; ring.
  - intros p Hp. unfold cinv. rewrite cmul_comm. apply cmul_cinv_r, Hp.
Qed.

Add Field Cplx_field : Cplx_field_theory.

Lemma cabs_div (z w : Cplx) : w <> C0 -> cabs (z / w) = cabs z / cabs w.
Proof.
  intros Hw. pose proof (cabs_pos w Hw) as Hp.
  assert (H : cabs (z / w) * cabs w = cabs z)
    by (rewrite <- cabs_mul, cdiv_mul_cancel by exact Hw; reflexivity).
  rewrite <- H. field. lra.
Qed.

Lemma cmul_integral (z w : Cplx) : (z * w)%C = C0 -> z = C0 \/ w = C0.
Proof.
  intros H. destruct (Ceq_dec z C0) as [Hz | Hz]; [left; exact Hz | ].
  destruct (Ceq_dec w C0) as [Hw | Hw]; [right; exact Hw | ].
  exfalso. exact (cmul_nonzero z w Hz Hw H).
Qed.

Lemma cexp_0 : cexp C0 = C1.
Proof.
  unfold cexp, C0, C1; cbn [Re Im fst snd].
  rewrite exp_0, cos_0, sin_0. f_equal; ring.
Qed.

Lemma double_nonzero (z : Cplx) : z <> C0 -> (z + z)%C <> C0.
Proof.
  intros Hz E. apply Hz. destruct z as [a b]. unfold C0 in *.
  cplx_unfold. inversion E. f_equal; lra.
Qed.

(** ** tl_waveforms.py *)

Lemma map_combine_map {A B C D : Type} (f : B * C -> D) (g : A -> B)
  (h : A -> C) (l : list A) :
  map f (combine (map g l) (map h l)) = map (fun a => f (g a, h a)) l.
Proof.
  induction l as [ | a l IH]; [reflexivity | ].
  cbn [map combine]. rewrite IH. reflexivity.
Qed.

(** The reference length: [length] when given, else the largest position. *)
Lemma reference_length_ok (z : list R) (len : option R) :
  len <> None \/ z <> [] ->
  exists L : R,
    match len with
    | None => np_max z
    | Some l => Ok l
    end = Ok L.
Proof.
  intros H. destruct len as [l | ].
  - exists l. reflexivity.
  - destruct z as [ | x xs].
    + destruct H as [H | H]; contradiction.
    + eexists. reflexivity.
Qed.

(** What the function returns, once the reference length L is known and
    ZL + Z0 is not zero. *)
Lemma v_i_envelopes_ok (V0p gamma Z0 : Cplx) (z : list R) (ZL : Cplx)
  (len : option R) (L : R) :
  match len with
  | None => np_max z
  | Some l => Ok l
  end = Ok L ->
  (ZL + Z0)%C <> C0 ->
  v_i_envelopes V0p gamma Z0 z ZL len =
    Ok (map (fun zi =>
               Some (V0p * cexp (- gamma * RtoC zi)
                     + V0p * ((ZL - Z0) / (ZL + Z0))
                       * cexp (gamma * RtoC (zi - L)))%C) z,
        map (fun zi =>
               np_elem_sub
                 (finite (np_cdiv (V0p * cexp (- gamma * RtoC zi)) Z0))
                 (finite (np_cdiv (V0p * ((ZL - Z0) / (ZL + Z0))
                                   * cexp (gamma * RtoC (zi - L))) Z0))) z).
Proof.
  intros HL Hd. unfold v_i_envelopes. rewrite HL; cbn [bind].
  rewrite py_cdiv_ok by exact Hd. cbn [bind].
  rewrite !map_combine_map. reflexivity.
Qed.

(** On a matched line (ZL = Z0) nothing is reflected: the voltage envelope
    decays as |V0p| exp(-Re(gamma) z), the current envelope is the voltage
    envelope over |Z0|; on a lossless line both are flat. *)
Theorem matched_envelopes_decay (V0p gamma Z0 : Cplx) (z : list R)
  (len : option R) :
  Z0 <> C0 ->
  len <> None \/ z <> [] ->
  exists Vz Iz : list np_elem,
    v_i_envelopes V0p gamma Z0 z Z0 len = Ok (Vz, Iz) /\
    standing_wave Vz Iz =
      (map (fun zi => Some (cabs V0p * exp (- Re gamma * zi))) z,
       map (fun zi => Some (cabs V0p * exp (- Re gamma * zi) / cabs Z0)) z).
Proof.
  intros HZ Hlen. destruct (reference_length_ok z len Hlen) as [L HL].
  rewrite (v_i_envelopes_ok _ _ _ _ _ _ L HL (double_nonzero Z0 HZ)).
  do 2 eexists. split; [reflexivity | ].
  unfold standing_wave. rewrite !map_map. f_equal.
  - apply map_ext. intros zi. cbn [option_map]. f_equal.
    rewrite csub_diag, cdiv_0_l, cmul_0_r, cmul_0_l, cadd_0_r.
    rewrite cabs_mul, cabs_cexp. f_equal. f_equal.
    destruct gamma; cplx_unfold; ring.
  - apply map_ext. intros zi.
    rewrite !np_cdiv_fin by exact HZ. cbn [finite np_elem_sub option_map].
    f_equal.
    rewrite csub_diag, cdiv_0_l, cmul_0_r, cmul_0_l.
    replace (V0p * cexp (- gamma * RtoC zi) / Z0 - C0 / Z0)%C
      with (V0p * cexp (- gamma * RtoC zi) / Z0)%C by (field; exact HZ).
    rewrite cabs_div, cabs_mul, cabs_cexp by exact HZ. do 3 f_equal.
    destruct gamma; cplx_unfold; ring.
Qed.

Lemma matched_envelopes_decay_witness :
  (50, 0) <> C0 /\
  exists Vz Iz : list np_elem,
    v_i_envelopes C1 (1 / 10, 20) (50, 0) [0; 1 / 2; 1] (50, 0) None
    = Ok (Vz, Iz) /\
    standing_wave Vz Iz =
      (map (fun zi => Some (cabs C1 * exp (- Re (1 / 10, 20) * zi)))
           [0; 1 / 2; 1],
       map (fun zi => Some (cabs C1 * exp (- Re (1 / 10, 20) * zi)
                            / cabs (50, 0)))
           [0; 1 / 2; 1]).
Proof.
  assert (HZ : (50, 0) <> C0) by (apply pair_nonzero_l; lra).
  split; [exact HZ | ].
  apply (matched_envelopes_decay C1 (1 / 10, 20) (50, 0) [0; 1 / 2; 1] None HZ).
  right. discriminate.
Defined.

Lemma csub_eq_0 (z w : Cplx) : (z - w)%C = C0 <-> z = w.
Proof.
  split.
  - intros H. destruct z as [a b], w as [c d]. unfold C0 in H.
    cplx_unfold. inversion H. f_equal; lra.
  - intros ->. apply csub_diag.
Qed.

(** At the position z = length the envelopes obey Ohm's law at the load,
    V = ZL I, only if the load is matched or exp(-gamma length) = 1: the
    reflected wave is written V0p Gamma exp(gamma (z - length)), without
    the factor exp(-gamma length) of the incident wave at the load. *)
Theorem load_boundary_condition (V0p gamma Z0 ZL : Cplx) (z : list R)
  (L : R) (i : nat) :
  V0p <> C0 -> Z0 <> C0 -> (ZL + Z0)%C <> C0 ->
  nth_error z i = Some L ->
  exists (Vz Iz : list np_elem) (v c : Cplx),
    v_i_envelopes V0p gamma Z0 z ZL (Some L) = Ok (Vz, Iz) /\
    nth_error Vz i = Some (Some v) /\
    nth_error Iz i = Some (Some c) /\
    (v = (ZL * c)%C <-> ZL = Z0 \/ cexp (- gamma * RtoC L) = C1).
Proof.
  intros HV HZ Hd Hi.
  rewrite (v_i_envelopes_ok _ _ _ _ _ (Some L) L eq_refl Hd).
  do 2 eexists.
  exists (V0p * cexp (- gamma * RtoC L)
          + V0p * ((ZL - Z0) / (ZL + Z0)) * cexp (gamma * RtoC (L - L)))%C.
  exists (V0p * cexp (- gamma * RtoC L) / Z0
          - V0p * ((ZL - Z0) / (ZL + Z0)) * cexp (gamma * RtoC (L - L)) / Z0)%C.
  split; [reflexivity | ].
  split; [erewrite map_nth_error by exact Hi; reflexivity | ].
  split.
  { erewrite map_nth_error by exact Hi.
    rewrite !np_cdiv_fin by exact HZ. reflexivity. }
  replace (L - L) with 0 by ring. rewrite cmul_RtoC_0, cexp_0.
  set (e := cexp (- gamma * RtoC L)).
  assert (Hid : (V0p * e + V0p * ((ZL - Z0) / (ZL + Z0)) * C1
                 - ZL * (V0p * e / Z0
                         - V0p * ((ZL - Z0) / (ZL + Z0)) * C1 / Z0))%C
                = (V0p / Z0 * ((ZL - Z0) * (C1 - e)))%C).
  { field. split; assumption. }
  assert (Hq : (V0p / Z0)%C <> C0) by (apply cdiv_nonzero; assumption).
  split.
  - intros Heq. apply csub_eq_0 in Heq. rewrite Hid in Heq.
    apply cmul_integral in Heq. destruct Heq as [Heq | Heq]; [contradiction | ].
    apply cmul_integral in Heq. destruct Heq as [Heq | Heq].
    + left. apply csub_eq_0, Heq.
    + right. symmetry. apply csub_eq_0, Heq.
  - intros Hcase. apply csub_eq_0. rewrite Hid.
    destruct Hcase as [-> | ->].
    + rewrite csub_diag, cmul_0_l. apply cmul_0_r.
    + rewrite csub_diag, !cmul_0_r. reflexivity.
Qed.

Lemma load_boundary_condition_witness :
  C1 <> C0 /\ (50, 0) <> C0 /\ ((100, 0) + (50, 0))%C <> C0 /\
  nth_error [0; 1 / 2; 1] 2 = Some 1 /\
  exists (Vz Iz : list np_elem) (v c : Cplx),
    v_i_envelopes C1 Ci (50, 0) [0; 1 / 2; 1] (100, 0) (Some 1)
    = Ok (Vz, Iz) /\
    nth_error Vz 2 = Some (Some v) /\
    nth_error Iz 2 = Some (Some c) /\
    (v = ((100, 0) * c)%C
     <-> (100, 0) = (50, 0) \/ cexp (- Ci * RtoC 1) = C1).
Proof.
  assert (H1 : C1 <> C0) by (apply pair_nonzero_l; lra).
  assert (H2 : (50, 0) <> C0) by (apply pair_nonzero_l; lra).
  assert (H3 : ((100, 0) + (50, 0))%C <> C0).
  { replace ((100, 0) + (50, 0))%C with ((150, 0) : Cplx)
      by (cplx_unfold; f_equal; ring).
    apply pair_nonzero_l. lra. }
  assert (H4 : nth_error [0; 1 / 2; 1] 2 = Some 1) by reflexivity.
  repeat (split; [assumption | ]).
  exact (load_boundary_condition C1 Ci (50, 0) (100, 0) [0; 1 / 2; 1] 1 2
           H1 H2 H3 H4).
Defined.

(** ** tl_dataset.py *)

Lemma finite_vswr_at_least_one (m : R) :
  0 <= m < 1 -> 1 <= (1 + m) / (1 - m).
Proof.
  intros [H0 H1].
  assert (Hi : 0 < / (1 - m)) by (apply Rinv_0_lt_compat; lra).
  assert (He : (1 - m) * / (1 - m) = 1) by (field; lra).
  unfold Rdiv. nra.
Qed.

Lemma regression_label_finite (d : draw) :
  in_sampling_range d ->
  exists x : R, regression_label d = Ok (Fin x) /\ 1 <= x.
Proof.
  intros (HR & HL & HG & HC & Hf & _ & HRL).
  pose proof PI_RGT_0 as Hpi.
  unfold regression_label.
  set (w := 2 * PI * dr_f d).
  assert (Hw : 0 < w) by (unfold w; nra).
  assert (HwC : 0 < w * dr_C d) by (apply Rmult_lt_0_compat; lra).
  assert (HwL : 0 < w * dr_L d) by (apply Rmult_lt_0_compat; lra).
  assert (HY : line_Z (dr_G d) (dr_C d) (dr_f d) <> C0).
  { unfold line_Z, C0. fold w. intros E; inversion E; lra. }
  rewrite gamma_Z0_ok by (try lra; exact HY). cbn [bind snd].
  set (z0 := csqrt (line_Z (dr_R d) (dr_L d) (dr_f d)
                    / line_Z (dr_G d) (dr_C d) (dr_f d))%C).
  assert (Hz0 : 0 < Re z0).
  { apply csqrt_re_pos. right.
    pose proof (cnorm2_pos _ HY) as Hn.
    unfold line_Z in *; fold w in Hn |- *; cplx_unfold.
    apply Rdiv_lt_0_compat; [ | exact Hn].
    assert (0 <= dr_R d * dr_G d) by nra.
    assert (0 < w * dr_L d * (w * dr_C d)) by (apply Rmult_lt_0_compat; lra).
    lra. }
  assert (Hbig : ~ cabs (RtoC (dr_RL d) + z0) < 1e-12).
  { intros Hs. pose proof (cabs_ge_re (RtoC (dr_RL d) + z0)%C) as Hre.
    cbn [cadd RtoC Re Im fst snd] in Hre.
    rewrite Rabs_right in Hre; lra. }
  unfold gamma_of_impedance.
  destruct (Rlt_dec (cabs (RtoC (dr_RL d) + z0)) 1e-12) as [ | _];
    [contradiction | ].
  apply cabs_not_small_nonzero in Hbig.
  rewrite py_cdiv_ok by exact Hbig. cbn [bind].
  assert (Hg : cabs ((RtoC (dr_RL d) - z0) / (RtoC (dr_RL d) + z0)) < 1).
  { apply reflection_modulus; [exact Hbig | ].
    cbn [RtoC Re Im fst snd]. nra. }
  unfold vswr_from_gamma.
  destruct (Rge_dec _ 1) as [Hge | _]; [lra | ].
  pose proof (cabs_nonneg ((RtoC (dr_RL d) - z0) / (RtoC (dr_RL d) + z0))) as H0.
  rewrite py_rdiv_ok by lra. cbn [bind].
  eexists; split; [reflexivity | ].
  apply finite_vswr_at_least_one. lra.
Qed.

(** Every label of the regression data set is a finite VSWR of at least 1:
    for rows drawn in the sampling ranges of the generator the loop never
    raises and never stores an infinite value or a nan. *)
Theorem regression_labels_finite (draws : list draw) :
  Forall in_sampling_range draws ->
  exists ys : list (ext R),
    make_regression_labels draws = Ok ys /\
    length ys = length draws /\
    Forall (fun v => exists x : R, v = Fin x /\ 1 <= x) ys.
Proof.
  unfold make_regression_labels.
  induction 1 as [ | d draws Hd _ (ys & Hys & Hlen & Hall)].
  - exists []. repeat split. constructor.
  - destruct (regression_label_finite d Hd) as (x & Hx & Hx1).
    cbn [for_each]. rewrite Hx, Hys. cbn [bind].
    eexists; split; [reflexivity | ]. split.
    + cbn [length]. rewrite Hlen. reflexivity.
    + constructor; [exists x; auto | exact Hall].
Qed.

Lemma regression_labels_finite_witness :
  exists ys : list (ext R),
    make_regression_labels
      [mkDraw 0.05 2e-7 1e-8 1e-10 1e9 0.1 100;
       mkDraw 0.2 5e-7 0 5e-11 5e8 0.5 5] = Ok ys /\
    length ys = 2%nat /\
    Forall (fun v => exists x : R, v = Fin x /\ 1 <= x) ys.
Proof.
  apply (regression_labels_finite
           [mkDraw 0.05 2e-7 1e-8 1e-10 1e9 0.1 100;
            mkDraw 0.2 5e-7 0 5e-11 5e8 0.5 5]).
  apply Forall_cons; [ | apply Forall_cons; [ | apply Forall_nil]];
    unfold in_sampling_range; cbn [dr_R dr_L dr_G dr_C dr_f dr_l dr_RL];
    repeat split; lra.
Defined.

(** ** tl_matching.py: error paths and designs of the two solvers *)

(** A lossless line with positive L and C at a positive frequency. *)
Lemma gamma_Z0_lossless (L C f0 : R) :
  0 < L -> 0 < C -> 0 < f0 ->
  gamma_Z0 0 L 0 C f0
  = Ok ((0, 2 * PI * f0 * sqrt (L * C)), (sqrt (L / C), 0)).
Proof.
  intros HL HC Hf. pose proof PI_RGT_0 as Hpi.
  set (w := 2 * PI * f0).
  assert (Hw : 0 < w) by (unfold w; nra).
  assert (HwC : 0 < w * C) by (apply Rmult_lt_0_compat; lra).
  assert (HwL : 0 < w * L) by (apply Rmult_lt_0_compat; lra).
  rewrite gamma_Z0_ok
    by (try lra; unfold line_Z, C0; fold w; intros E; inversion E; lra).
  rewrite lossless_product, lossless_quotient by (fold w; lra).
  fold w.
  assert (Hp : 0 < w * L * (w * C)) by (apply Rmult_lt_0_compat; lra).
  rewrite csqrt_neg_real by lra. rewrite Ropp_involutive.
  rewrite csqrt_nonneg_real by (apply Rlt_le, Rdiv_lt_0_compat; lra).
  replace (w * L * (w * C)) with (w * w * (L * C)) by ring.
  rewrite sqrt_mult_alt by nra. rewrite sqrt_square by lra.
  reflexivity.
Qed.

(** At zero frequency the quarter-wave solver does not always reach its
    own guard: with G = 0 the shunt admittance is zero and [gamma_Z0]
    raises ZeroDivisionError; with G > 0 and R >= 0 the phase constant is
    zero and the descriptive ValueError is raised. *)
Theorem quarter_wave_at_dc (R_ L G C : R) (ZL : Cplx) :
  (G = 0 ->
   quarter_wave_transform R_ L G C 0 ZL = Raise ZeroDivisionError) /\
  (0 < G -> 0 <= R_ ->
   quarter_wave_transform R_ L G C 0 ZL =
     Raise (ValueError
              "Quarter-wave undefined: beta (imag part of gamma) is zero.")).
Proof.
  split.
  - intros ->. unfold quarter_wave_transform.
    rewrite gamma_Z0_raises; [reflexivity | ].
    unfold line_Z, C0. f_equal. ring.
  - intros HG HR.
    assert (HY : line_Z G C 0 <> C0)
      by (unfold line_Z; apply pair_nonzero_l; lra).
    eapply quarter_wave_raises.
    + apply gamma_Z0_signed, HY.
    + apply isclose_0_true.
      replace (line_Z R_ L 0 * line_Z G C 0)%C with ((R_ * G, 0) : Cplx)
        by (unfold line_Z; cplx_unfold; f_equal; ring).
      rewrite np_sqrt_nonneg_real by nra. cbn [Im snd].
      rewrite Rabs_R0. lra.
Qed.

Lemma quarter_wave_at_dc_witness :
  quarter_wave_transform (1 / 20) 2e-7 0 1e-10 0 (100, 0)
  = Raise ZeroDivisionError /\
  quarter_wave_transform (1 / 20) 2e-7 1e-8 1e-10 0 (100, 0)
  = Raise (ValueError
             "Quarter-wave undefined: beta (imag part of gamma) is zero.").
Proof.
  split.
  - exact (proj1 (quarter_wave_at_dc (1 / 20) 2e-7 0 1e-10 (100, 0)) eq_refl).
  - apply (proj2 (quarter_wave_at_dc (1 / 20) 2e-7 1e-8 1e-10 (100, 0))); lra.
Defined.

(** The single-stub solver on a degenerate matching section: with
    f0 * C = 0 the call of [gamma_Z0] raises ZeroDivisionError; otherwise,
    with L * C <= 0, the phase constant is zero, the wavelength is not
    finite, the sweep accepts no sample and the TypeError of
    [Yin_best - y0] on [None] comes out. *)
Theorem single_stub_degenerate (R_ L G C f0 l : R) (ZL : Cplx)
  (prefer : string) :
  (f0 * C = 0 ->
   single_stub_shunt R_ L G C f0 l ZL prefer = Raise ZeroDivisionError) /\
  (f0 * C <> 0 -> L * C <= 0 ->
   single_stub_shunt R_ L G C f0 l ZL prefer = Raise TypeError).
Proof.
  pose proof PI_RGT_0 as Hpi. split.
  - intros H0. unfold single_stub_shunt.
    rewrite gamma_Z0_raises; [reflexivity | ].
    unfold line_Z, C0. f_equal.
    replace (2 * PI * f0 * C) with (2 * PI * (f0 * C)) by ring.
    rewrite H0. ring.
  - intros Hn HLC. unfold single_stub_shunt.
    assert (HwC : 2 * PI * f0 * C <> 0).
    { intros E. apply Hn.
      replace (2 * PI * f0 * C) with (2 * PI * (f0 * C)) in E by ring.
      apply Rmult_integral in E. destruct E as [E | E]; [lra | exact E]. }
    rewrite gamma_Z0_signed
      by (unfold line_Z, C0; intros E; inversion E; contradiction).
    cbn [bind fst snd]. rewrite lossless_product.
    assert (Hp : 0 <= - (2 * PI * f0 * L * (2 * PI * f0 * C))).
    { replace (2 * PI * f0 * L * (2 * PI * f0 * C))
        with ((2 * PI * f0) * (2 * PI * f0) * (L * C)) by ring.
      assert (0 <= (2 * PI * f0) * (2 * PI * f0)) by nra. nra. }
    rewrite np_sqrt_nonneg_real by exact Hp. cbn [Im snd].
    unfold np_rdiv. destruct (Req_dec_T 0 0) as [_ | H]; [ | contradiction].
    destruct (Req_dec_T (2 * PI) 0) as [E | _]; [lra | ].
    reflexivity.
Qed.

Lemma single_stub_degenerate_witness :
  single_stub_shunt (1 / 20) 2e-7 1e-8 1e-10 0 (1 / 10) (100, 50) "short"
  = Raise ZeroDivisionError /\
  single_stub_shunt (1 / 20) 0 1e-8 1e-10 1e9 (1 / 10) (100, 50) "short"
  = Raise TypeError.
Proof.
  split.
  - apply (proj1 (single_stub_degenerate (1 / 20) 2e-7 1e-8 1e-10 0 (1 / 10)
                    (100, 50) "short")). ring.
  - apply (proj2 (single_stub_degenerate (1 / 20) 0 1e-8 1e-10 1e9 (1 / 10)
                    (100, 50) "short")); lra.
Defined.

Lemma first_sample_is_zero (stop : R) :
  nth_error (linspace 0 stop 1000) 0 = Some 0.
Proof.
  rewrite linspace_nth by lia. f_equal. simpl INR. ring.
Qed.

Lemma cinv_real (x : R) : x <> 0 -> (C1 / (x, 0))%C = (/ x, 0).
Proof. intros Hx. cplx_unfold. f_equal; field; exact Hx. Qed.

(** The single-stub solver returns, for either stub preference, on every
    lossless section with positive L, C and f0 and every non-zero load
    whose conductance is within 1e9 of the line's 1/Z0 = sqrt(C/L): the
    first sample of the sweep is then accepted. *)
Theorem single_stub_returns_on_physical_line (R_ L G C f0 l : R)
  (ZL : Cplx) (prefer : string) :
  0 < L -> 0 < C -> 0 < f0 ->
  ZL <> C0 ->
  Rabs (Re (C1 / ZL) - / sqrt (L / C)) < 1e9 ->
  exists res : StubMatchResult,
    single_stub_shunt R_ L G C f0 l ZL prefer = Ok res.
Proof.
  intros HL HC Hf HZL Herr. pose proof PI_RGT_0 as Hpi.
  assert (Hz0 : 0 < sqrt (L / C))
    by (apply sqrt_lt_R0, Rdiv_lt_0_compat; assumption).
  assert (Hb : 0 < 2 * PI * f0 * sqrt (L * C)).
  { apply Rmult_lt_0_compat; [nra | ].
    apply sqrt_lt_R0, Rmult_lt_0_compat; assumption. }
  assert (HZ : (sqrt (L / C), 0) <> C0) by (apply pair_nonzero_l; lra).
  apply (single_stub_returns _ _ _ _ _ _ _ _ _ _ (gamma_Z0_lossless L C f0 HL HC Hf));
    cbn [Im snd]; [lra | exact HZ | ].
  apply (sweep_finds _ _ _ _ _ 0%nat 0 (Rabs (Re (C1 / ZL) - / sqrt (L / C)))).
  - apply first_sample_is_zero.
  - unfold err_at. rewrite Yin_at_load by assumption.
    rewrite cinv_real by lra. reflexivity.
  - exact Herr.
Qed.

Lemma single_stub_returns_on_physical_line_witness :
  exists res : StubMatchResult,
    single_stub_shunt (1 / 20) 1 (1 / 100) 4 1 (1 / 10) (2, 0) "open" = Ok res.
Proof.
  apply single_stub_returns_on_physical_line; try lra.
  - apply pair_nonzero_l. lra.
  - rewrite cinv_real by lra. cbn [Re fst].
    assert (Hs : sqrt (1 / 4) = 1 / 2).
    { replace (1 / 4) with ((1 / 2) * (1 / 2)) by field.
      apply sqrt_square. lra. }
    rewrite Hs.
    replace (/ 2 - / (1 / 2)) with (- (3 / 2)) by field.
    rewrite Rabs_Ropp, Rabs_right; lra.
Defined.

(** With a load equal to Z0 every sample of the sweep has error zero and
    the first one is kept. *)
Lemma matched_sweep (Z0 : Cplx) (beta stop : R) :
  Z0 <> C0 ->
  snd (sweep Z0 Z0 (C1 / Z0) beta (linspace 0 stop 1000))
  = Some (0, (C1 / Z0)%C).
Proof.
  intros HZ.
  pose proof (sweep_inv_final Z0 Z0 (C1 / Z0)%C beta (linspace 0 stop 1000))
    as Hinv.
  assert (He0 : err_at Z0 Z0 (C1 / Z0) beta 0 = Some 0).
  { unfold err_at. rewrite Yin_at_load by assumption.
    rewrite Rminus_diag, Rabs_R0. reflexivity. }
  pose proof (first_sample_is_zero stop) as H0.
  destruct (sweep Z0 Z0 (C1 / Z0)%C beta (linspace 0 stop 1000)) as [m b].
  destruct Hinv as (_ & Hall & Hbest). cbn [fst snd] in *.
  pose proof (Hall _ _ _ H0 He0) as Hm0.
  destruct b as [[d Yin] | ]; [ | lra].
  destruct Hbest as (HY & Hm & _ & k & Hk & Hfirst).
  assert (Hmz : 0 <= m) by (rewrite Hm; apply Rabs_pos).
  destruct k as [ | k].
  - rewrite H0 in Hk. inversion Hk; subst d.
    rewrite Yin_at_load in HY by assumption. inversion HY. reflexivity.
  - exfalso. pose proof (Hfirst 0%nat 0 0 ltac:(lia) H0 He0). lra.
Qed.

Lemma cmul_RtoC_0_l (z : Cplx) : (RtoC 0 * z)%C = C0.
Proof. destruct z; cplx_unfold; f_equal; ring. Qed.

Lemma ccos_PI2 : ccos (PI / 2, 0) = C0.
Proof.
  unfold ccos, C0; cbn [Re Im fst snd].
  rewrite cos_PI2, sinh_0. f_equal; ring.
Qed.

Lemma csin_PI2 : csin (PI / 2, 0) = C1.
Proof.
  unfold csin, C1; cbn [Re Im fst snd].
  rewrite sin_PI2, cos_PI2, cosh_0, sinh_0. f_equal; ring.
Qed.

Lemma abcd_of_tline_zero (gamma Z0 : Cplx) :
  Z0 <> C0 -> abcd_of_tline gamma Z0 0 = Ok eye2.
Proof.
  intros HZ. rewrite abcd_of_tline_ok by exact HZ.
  rewrite cmul_RtoC_0, ccosh_0, csinh_0, !cmul_0_r. reflexivity.
Qed.

(** A load that is already matched stays matched: on a lossless section
    with positive L, C and f0, the load ZL = Z0 = sqrt(L/C) (at least
    5e-13) gets a quarter-wave stub, l_stub = lambda/4, whose admittance
    is zero, and VSWR_src = 1, for either stub preference and any line
    length. *)
Theorem matched_load_design (R_ L G C f0 l : R) (prefer : string) :
  0 < L -> 0 < C -> 0 < f0 ->
  1e-12 <= 2 * sqrt (L / C) ->
  exists res : StubMatchResult,
    single_stub_shunt R_ L G C f0 l (sqrt (L / C), 0) prefer = Ok res /\
    l_stub res = (PI / 2 / (2 * PI * f0 * sqrt (L * C)), 0) /\
    VSWR_src res = Fin 1.
Proof.
  intros HL HC Hf Hguard. pose proof PI_RGT_0 as Hpi.
  set (z0 := sqrt (L / C)) in *.
  set (beta := 2 * PI * f0 * sqrt (L * C)).
  assert (Hz0 : 0 < z0)
    by (apply sqrt_lt_R0, Rdiv_lt_0_compat; assumption).
  assert (Hb : 0 < beta).
  { unfold beta. apply Rmult_lt_0_compat; [nra | ].
    apply sqrt_lt_R0, Rmult_lt_0_compat; assumption. }
  assert (HZ : (z0, 0) <> C0) by (apply pair_nonzero_l; lra).
  unfold single_stub_shunt.
  rewrite (gamma_Z0_lossless L C f0 HL HC Hf). fold z0 beta.
  cbn [bind fst snd Im].
  unfold np_rdiv. destruct (Req_dec_T beta 0) as [E | _]; [lra | ].
  rewrite np_cdiv_fin by exact HZ. cbn [finite].
  rewrite matched_sweep by exact HZ.
  rewrite csub_diag. cbn [Im C0 snd]. rewrite Ropp_0, Ropp_0.
  rewrite cmul_RtoC_0_l.
  assert (Htheta : arctan_recip C0 = (PI / 2, 0)).
  { unfold arctan_recip.
    destruct (Ceq_dec C0 C0) as [_ | H]; [reflexivity | contradiction]. }
  replace (if (prefer =? "short")%string then C0 else C0) with C0
    by (destruct (prefer =? "short")%string; reflexivity).
  rewrite Htheta, clt_lex_real_0.
  destruct (Rlt_dec (PI / 2) 0) as [Hn | _]; [lra | ].
  rewrite cdiv_real by lra. rewrite cmul_RtoC_real.
  replace (beta * (PI / 2 / beta)) with (PI / 2) by (field; lra).
  assert (Hstub : forall x : Cplx, div_by_tan x (PI / 2, 0) = Fin C0).
  { intros x. unfold div_by_tan. rewrite ccos_PI2, csin_PI2, cmul_0_r.
    rewrite np_cdiv_fin by (apply pair_nonzero_l; lra).
    rewrite cdiv_0_l. reflexivity. }
  rewrite !Hstub.
  replace (if (prefer =? "short")%string then Fin C0 else Fin C0)
    with (@Fin Cplx C0)
    by (destruct (prefer =? "short")%string; reflexivity).
  rewrite abcd_of_tline_zero by exact HZ. cbn [bind].
  destruct (matched_line_zin (0, beta) (z0, 0) (l - 0) HZ) as (M2 & HM2 & Hzin).
  rewrite HM2. cbn [bind].
  replace (cascade_abcd [eye2; abcd_of_shunt_admittance C0; M2]) with M2
    by (unfold cascade_abcd; cbn [fold_left];
        change (abcd_of_shunt_admittance C0) with eye2;
        rewrite !matmul_eye2_l; reflexivity).
  rewrite Hzin. cbn [Re fst].
  replace (0 * (l - 0)) with 0 by ring. rewrite exp_0.
  destruct (Rlt_dec 1 1e-12) as [Hn | _]; [lra | ].
  unfold gamma_of_impedance.
  replace (cabs ((z0, 0) + (z0, 0))) with (2 * z0).
  2:{ replace ((z0, 0) + (z0, 0))%C with ((2 * z0, 0) : Cplx)
        by (cplx_unfold; f_equal; ring).
      rewrite cabs_real, Rabs_right; lra. }
  destruct (Rlt_dec (2 * z0) 1e-12) as [Hn | _]; [lra | ].
  rewrite py_cdiv_ok by (apply double_nonzero, HZ). cbn [bind].
  rewrite csub_diag, cdiv_0_l.
  unfold vswr_from_gamma. rewrite cabs_C0.
  destruct (Rge_dec 0 1) as [Hn | _]; [lra | ].
  rewrite py_rdiv_ok by lra. cbn [bind].
  eexists. split; [reflexivity | ]. cbn [l_stub VSWR_src].
  repeat split. f_equal. field.
Qed.

Lemma matched_load_design_witness :
  exists res : StubMatchResult,
    single_stub_shunt (1 / 20) 1 (1 / 100) 1 1 (1 / 10) (sqrt (1 / 1), 0)
                      "short" = Ok res /\
    l_stub res = (PI / 2 / (2 * PI * 1 * sqrt (1 * 1)), 0) /\
    VSWR_src res = Fin 1.
Proof.
  apply matched_load_design; try lra.
  replace (1 / 1) with 1 by field. rewrite sqrt_1. lra.
Defined.

Lemma cdiv_by_zero (z : Cplx) : (z / C0)%C = C0.
Proof.
  destruct z; cplx_unfold. unfold Rdiv.
  replace (0 * 0 + 0 * 0) with 0 by ring. rewrite Rinv_0. f_equal; ring.
Qed.

(** What a returned quarter-wave result is made of. *)
Lemma quarter_wave_inv (R_ L G C f0 : R) (ZL gamma Z0 : Cplx)
  (res : QWTMatchResult) :
  gamma_Z0 R_ L G C f0 = Ok (gamma, Z0) ->
  quarter_wave_transform R_ L G C f0 ZL = Ok res ->
  isclose (Im gamma) 0 = false /\
  qwt_Zt res = csqrt (Z0 * ZL) /\
  qwt_l_qw res = PI / (2 * Im gamma).
Proof.
  intros Hg H. unfold quarter_wave_transform in H.
  rewrite Hg in H; cbn [bind fst snd] in H.
  destruct (isclose (Im gamma) 0); [discriminate | ].
  split; [reflexivity | ].
  match type of H with
  | bind ?c _ = _ => destruct c as [g | e]; cbn [bind] in H
  end; [ | discriminate].
  match type of H with
  | bind ?c _ = _ => destruct c as [v | e]; cbn [bind] in H
  end; [ | discriminate].
  inversion H. split; reflexivity.
Qed.

(** The design returned by the quarter-wave solver does what it promises:
    a lossless section of characteristic impedance Zt and length l_qw,
    with the phase constant beta of the host line, turns the load ZL into
    the host's Z0 (provided |ZL / Zt| is not below the 1e-12 guard of the
    input-impedance formula). *)
Theorem quarter_wave_design_realized (R_ L G C f0 : R) (ZL gamma Z0 : Cplx)
  (res : QWTMatchResult) :
  gamma_Z0 R_ L G C f0 = Ok (gamma, Z0) ->
  quarter_wave_transform R_ L G C f0 ZL = Ok res ->
  ~ cabs (ZL / qwt_Zt res) < 1e-12 ->
  exists M : ABCD,
    abcd_of_tline (0, Im gamma) (qwt_Zt res) (qwt_l_qw res) = Ok M /\
    z_in_from_abcd M ZL = Fin Z0.
Proof.
  intros Hg Hres Hbig.
  destruct (quarter_wave_inv _ _ _ _ _ _ _ _ _ Hg Hres) as (Hc & HZt & Hl).
  assert (Hb : Im gamma <> 0).
  { apply isclose_0_false in Hc. intros E. rewrite E, Rabs_R0 in Hc. lra. }
  assert (Hq : (ZL / qwt_Zt res)%C <> C0) by (apply cabs_not_small_nonzero, Hbig).
  assert (HZt0 : qwt_Zt res <> C0).
  { intros E. apply Hq. rewrite E. apply cdiv_by_zero. }
  assert (HZL : ZL <> C0).
  { intros E. apply Hq. rewrite E. apply cdiv_0_l. }
  destruct (quarter_wave_section_zin (Im gamma) (qwt_Zt res) ZL Hb HZt0 Hbig)
    as (M & HM & Hzin).
  exists M. rewrite Hl. split; [exact HM | ].
  rewrite Hzin, HZt, csqrt_sqr, cmul_cdiv_cancel by exact HZL.
  reflexivity.
Qed.

Lemma unit_line_quarter_wave_returns :
  exists res : QWTMatchResult,
    quarter_wave_transform 0 1 0 1 1 (2, 0) = Ok res.
Proof.
  pose proof (gamma_Z0_unit_line 1 1 Rlt_0_1 Rlt_0_1) as Hg.
  assert (Hc : isclose (Im (0, 2 * PI * 1 * 1)) 0 = false).
  { apply isclose_0_false. cbn [Im snd]. pose proof PI2_1.
    rewrite Rabs_right by lra. lra. }
  rewrite (quarter_wave_past_guard _ _ _ _ _ _ _ _ Hg Hc)
    by (apply pair_nonzero_l; lra).
  match goal with
  | |- context [gamma_of_impedance ?z ?z0] =>
      destruct (gamma_of_impedance_total z z0) as [g ->]
  end.
  cbn [bind]. destruct (vswr_from_gamma_total g) as [v ->]. cbn [bind].
  eexists; reflexivity.
Qed.

Lemma quarter_wave_design_realized_witness :
  exists res : QWTMatchResult,
    gamma_Z0 0 1 0 1 1 = Ok ((0, 2 * PI * 1 * 1), (1, 0)) /\
    quarter_wave_transform 0 1 0 1 1 (2, 0) = Ok res /\
    ~ cabs ((2, 0) / qwt_Zt res) < 1e-12 /\
    exists M : ABCD,
      abcd_of_tline (0, Im (0, 2 * PI * 1 * 1)) (qwt_Zt res) (qwt_l_qw res)
      = Ok M /\
      z_in_from_abcd M (2, 0) = Fin (1, 0).
Proof.
  pose proof (gamma_Z0_unit_line 1 1 Rlt_0_1 Rlt_0_1) as Hg.
  destruct unit_line_quarter_wave_returns as [res Hres].
  assert (Hbig : ~ cabs ((2, 0) / qwt_Zt res) < 1e-12).
  { destruct (quarter_wave_inv _ _ _ _ _ _ _ _ _ Hg Hres) as (_ & HZt & _).
    rewrite HZt.
    replace ((1, 0) * (2, 0))%C with ((2, 0) : Cplx)
      by (cplx_unfold; f_equal; ring).
    rewrite csqrt_nonneg_real by lra.
    assert (Hs : 0 < sqrt 2) by (apply sqrt_lt_R0; lra).
    assert (Hs2 : sqrt 2 * sqrt 2 = 2) by (apply sqrt_sqrt; lra).
    rewrite cdiv_real_real by lra. rewrite cabs_real.
    replace (2 / sqrt 2) with (sqrt 2) by (field_simplify_eq; lra).
    rewrite Rabs_right by lra. nra. }
  exists res. split; [exact Hg | ]. split; [exact Hres | ].
  split; [exact Hbig | ].
  exact (quarter_wave_design_realized 0 1 0 1 1 (2, 0) _ _ res Hg Hres Hbig).
Defined.

(** ** tl_basics.py: the telegrapher relations *)

(** Whatever [gamma_Z0] returns satisfies gamma^2 = Z Y and Z0^2 Y = Z for
    Z = R + j omega L and Y = G + j omega C, with Re(gamma) >= 0 and
    Re(Z0) >= 0; and for non-negative R, L, G, C, f the phase constant
    Im(gamma) is non-negative too. *)
Theorem telegrapher_relations (R_ L G C f : R) (gamma Z0 : Cplx) :
  gamma_Z0 R_ L G C f = Ok (gamma, Z0) ->
  (gamma * gamma = line_Z R_ L f * line_Z G C f)%C /\
  (Z0 * Z0 * line_Z G C f = line_Z R_ L f)%C /\
  0 <= Re gamma /\
  0 <= Re Z0 /\
  (0 <= R_ -> 0 <= L -> 0 <= G -> 0 <= C -> 0 <= f -> 0 <= Im gamma).
Proof.
  intros Hg.
  destruct (Ceq_dec (line_Z G C f) C0) as [HY | HY].
  { rewrite gamma_Z0_raises in Hg by exact HY. discriminate. }
  pose proof Hg as Hs. rewrite gamma_Z0_signed in Hs by exact HY.
  inversion Hs; subst gamma Z0. clear Hs.
  split; [apply np_sqrt_sqr | ].
  split; [rewrite np_sqrt_sqr; apply cdiv_mul_cancel, HY | ].
  split; [rewrite np_sqrt_re; apply csqrt_re_nonneg | ].
  split; [rewrite np_sqrt_re; apply csqrt_re_nonneg | ].
  intros HR HL HG HC Hf.
  rewrite gamma_Z0_ok in Hg by (try assumption; exact HY).
  inversion Hg as [[Hgam HZ0]]. try rewrite <- Hgam.
  apply beta_nonneg; assumption.
Qed.

Lemma telegrapher_relations_witness :
  exists gamma Z0 : Cplx,
    gamma_Z0 0 1 0 1 1 = Ok (gamma, Z0) /\
    (gamma * gamma = line_Z 0 1 1 * line_Z 0 1 1)%C /\
    (Z0 * Z0 * line_Z 0 1 1 = line_Z 0 1 1)%C /\
    0 <= Re gamma /\
    0 <= Re Z0 /\
    (0 <= 0 -> 0 <= 1 -> 0 <= 0 -> 0 <= 1 -> 0 <= 1 -> 0 <= Im gamma).
Proof.
  pose proof (gamma_Z0_unit_line 1 1 Rlt_0_1 Rlt_0_1) as Hg.
  do 2 eexists.
  split; [exact Hg | exact (telegrapher_relations 0 1 0 1 1 _ _ Hg)].
Defined.

(** A lossless line (R = G = 0) with positive L and C at a positive
    frequency has a purely imaginary propagation constant
    j 2 pi f sqrt(L C) and the real characteristic impedance sqrt(L/C). *)
Theorem lossless_line_characteristics (L C f : R) :
  0 < L -> 0 < C -> 0 < f ->
  gamma_Z0 0 L 0 C f
  = Ok ((0, 2 * PI * f * sqrt (L * C)), (sqrt (L / C), 0)).
Proof. exact (gamma_Z0_lossless L C f). Qed.

Lemma lossless_line_characteristics_witness :
  gamma_Z0 0 2e-7 0 1e-10 1e9
  = Ok ((0, 2 * PI * 1e9 * sqrt (2e-7 * 1e-10)), (sqrt (2e-7 / 1e-10), 0)).
Proof. apply lossless_line_characteristics; lra. Defined.
